(** * two_level_array.hpp: a two-level, lazily allocated array

    Shallow embedding of [src/containers/two_level_array.hpp] and the
    properties of its two class templates, [two_level_array_t] (chunks are
    released when they become empty) and [two_level_nevershrink_array_t]
    (chunks are kept until the container is destroyed). *)

From Stdlib Require Import ZArith Lia.
From stdpp Require Import base tactics option numbers list.

Local Open Scope Z_scope.

(** ** Machine integers

    [size_t] is taken to be 64 bits wide (LP64).  A [size_t] value is a [Z]
    in [0, 2^64); arithmetic that can leave that range is reduced with
    [size_wrap], as unsigned arithmetic is in C++. *)

Definition SIZE_WIDTH : Z := 64.
Definition SIZE_MAX : Z := 2 ^ SIZE_WIDTH - 1.
Definition size_wrap (z : Z) : Z := z mod 2 ^ SIZE_WIDTH.

(** [key_t], the parameter type of [chunk_for_key] and [index_for_key], is
    not declared in the header: it is the POSIX type of [<sys/types.h>], a
    32-bit signed integer.  [key_t z] is the value a [size_t] key [z] has
    once it is passed as a [key_t]: its low 32 bits, read as a two's
    complement number.  In [key / chunk_size] and [key % chunk_size] the
    other operand is a [size_t], so the [key_t] is converted back to
    [size_t]: [narrowed key] is the number the two functions divide. *)

Definition key_t (z : Z) : Z := (z + 2 ^ 31) mod 2 ^ 32 - 2 ^ 31.
Definition narrowed (key : Z) : Z := size_wrap (key_t key).

(** ** The value type

    The header's assumptions on [value_t]: a default constructor
    [value_t()], a conversion to [bool], [bool(value_t()) == false] and
    [bool(v) == true] for every other [v].  Constructor and destructor
    have no side effects, so values are plain data. *)

Class ValueT (value_t : Type) := {
  value_t_default : value_t;
  to_bool : value_t → bool;
  bool_default : to_bool value_t_default = false;
  bool_other : ∀ v, to_bool v = false → v = value_t_default
}.

(** Pointers, which the header recommends for [value_t]: an address is a
    number, the null pointer is [0] and converts to [false]. *)
Definition ptr_to_bool (p : Z) : bool := negb (p =? 0).

Definition ptr_value : ValueT Z :=
  {| value_t_default := 0;
     to_bool := ptr_to_bool;
     bool_default := eq_refl;
     bool_other := λ p Hp,
       proj1 (Z.eqb_eq p 0) (proj1 (negb_false_iff (p =? 0)) Hp) |}.

(** ** The template parameters [max_size] and [chunk_size] *)

Class Params := { max_size : Z; chunk_size : Z }.

(** The defaults of the header: [FAKE_UNRUNNABLE_MAX_TWO_LEVEL_ARRAY_SIZE]
    is [INT_MAX] and [DEFAULT_TWO_LEVEL_ARRAY_CHUNK_SIZE] is [1 << 16]. *)
Definition INT_MAX : Z := 2 ^ 31 - 1.
Definition DEFAULT_TWO_LEVEL_ARRAY_CHUNK_SIZE : Z := Z.shiftl 1 16.
Definition default_params : Params :=
  {| max_size := INT_MAX; chunk_size := DEFAULT_TWO_LEVEL_ARRAY_CHUNK_SIZE |}.

(** The small instance of the spec's example scenario. *)
Definition small_params : Params := {| max_size := 16; chunk_size := 4 |}.

(** An instance whose capacity goes beyond the range of [key_t]. *)
Definition big_params : Params := {| max_size := 2 ^ 32; chunk_size := 2 ^ 30 |}.

(** Both parameters are [size_t] template arguments; [chunk_size] is an
    array bound, so it is positive; and [max_size / chunk_size + 1] is
    computed in [size_t] and is meant not to wrap around. *)
Definition params_ok {P : Params} : Prop :=
  0 < chunk_size ≤ SIZE_MAX ∧ 0 ≤ max_size ≤ SIZE_MAX ∧
  max_size / chunk_size + 1 ≤ SIZE_MAX.

(** ** Outcomes and the state monad of the member functions

    A member function either returns ([Ok], with the new state of the
    object), stops the program in [rassert] ([Abort]), or indexes an array
    outside its bounds ([Undefined]). *)

Inductive result (A : Type) : Type :=
  | Ok (a : A)
  | Abort
  | Undefined.
Arguments Ok {A} a.
Arguments Abort {A}.
Arguments Undefined {A}.

Definition M (St A : Type) : Type := St → result (A * St).

Definition ret {St A} (x : A) : M St A := λ s, Ok (x, s).

Definition bind {St A B} (m : M St A) (k : A → M St B) : M St B :=
  λ s, match m s with
       | Ok (x, s') => k x s'
       | Abort => Abort
       | Undefined => Undefined
       end.

Declare Scope cpp_scope.
Delimit Scope cpp_scope with cpp.
Notation "'let*' x ':=' m 'in' k" := (bind m (λ x, k))
  (at level 10, x name, m at level 100, k at level 200) : cpp_scope.
Notation "m ';;' k" := (bind m (λ _, k))
  (at level 100, k at level 200, right associativity) : cpp_scope.
Local Open Scope cpp_scope.

Definition gets {St A} (f : St → A) : M St A := λ s, Ok (f s, s).
Definition modify {St} (f : St → St) : M St unit := λ s, Ok (tt, f s).
Definition undefined {St A} : M St A := λ _, Undefined.

(** Modelled from the spec: [rassert] comes from [errors.hpp], which is not
    part of the sources at hand; by the spec a failed assertion is fatal and
    terminates execution. *)
Definition rassert {St} (cond : bool) : M St unit :=
  λ s, if cond then Ok (tt, s) else Abort.

(** Reading [a[i]] of a C array held as a list: outside the bounds the
    behaviour is undefined. *)
Definition array_at {St A} (a : list A) (i : Z) : M St A :=
  match a !! Z.to_nat i with
  | Some x => ret x
  | None => undefined
  end.

(** [when c m] is [if (c) m;]. *)
Definition when {St} (c : bool) (m : M St unit) : M St unit :=
  if c then m else ret tt.

(** [for (size_t i = 0; i < n; i++) body(i);], for a bound [n] and a
    counter [i] that the body leaves alone. *)
Definition for_upto {St} (n : Z) (body : Z → M St unit) : M St unit :=
  foldr (λ i rest, body i;; rest) (ret tt) (seqZ 0 n).

(** A computation in which no [rassert] can fail. *)
Definition no_abort {St A} (m : M St A) : Prop := ∀ s, m s ≠ Abort.

(** [!p] for a pointer [p]. *)
Definition is_null {A} (p : option A) : bool :=
  match p with
  | None => true
  | Some _ => false
  end.

(** ** [two_level_array_t] *)

Module two_level_array_t.
Section defs.
Context {value_t : Type} {VT : ValueT value_t} {P : Params}.

(** [static const size_t num_chunks = max_size / chunk_size + 1;] *)
Definition num_chunks : Z := size_wrap (max_size / chunk_size + 1).

(** [struct chunk_t { size_t count; value_t values[chunk_size]; }] *)
Record chunk_t := { count : Z; values : list value_t }.

(** The constructor [chunk_t()]: [count(0), values()]. *)
Definition chunk_t_ctor : chunk_t :=
  {| count := 0; values := replicate (Z.to_nat chunk_size) value_t_default |}.

(** The object: the table [chunks] of [num_chunks] owning pointers, a
    null pointer being [None].  [news] and [deletes] count the
    evaluations of [new chunk_t] and of [delete chunk] on a live chunk,
    which makes allocation and release observable. *)
Record array := {
  chunks : list (option chunk_t);
  news : nat;
  deletes : nat
}.

Definition with_chunks (f : list (option chunk_t) → list (option chunk_t))
    (a : array) : array :=
  {| chunks := f (chunks a); news := news a; deletes := deletes a |}.

(** [chunk_for_key] and [index_for_key] take a [key_t]: the [size_t] key
    of the caller is converted at the call, and the [key_t] is converted
    to [size_t] for the division by the [size_t] constant [chunk_size]. *)
Definition chunk_for_key (key : Z) : M array Z :=
  let chunk_id := size_wrap (key_t key) / chunk_size in
  rassert (chunk_id <? num_chunks);;
  ret chunk_id.

Definition index_for_key (key : Z) : Z := size_wrap (key_t key) mod chunk_size.

(** The constructor: a table of [num_chunks] null pointers. *)
Definition ctor : array :=
  {| chunks := replicate (Z.to_nat num_chunks) None; news := 0; deletes := 0 |}.

(** [chunks[chunk_id]], read. *)
Definition load_chunk (chunk_id : Z) : M array (option chunk_t) :=
  let* tbl := gets chunks in array_at tbl chunk_id.

(** [chunks[chunk_id] = p]. *)
Definition store_chunk (chunk_id : Z) (p : option chunk_t) : M array unit :=
  modify (with_chunks <[Z.to_nat chunk_id := p]>).

(** [new chunk_t] *)
Definition new_chunk_t : M array chunk_t :=
  modify (λ a, {| chunks := chunks a; news := S (news a); deletes := deletes a |});;
  ret chunk_t_ctor.

(** [delete chunk] for a non-null [chunk]. *)
Definition delete_chunk : M array unit :=
  modify (λ a, {| chunks := chunks a; news := news a; deletes := S (deletes a) |}).

(** After line 88 of the header the local pointer [chunk] is the pointer
    held in [chunks[chunk_id]]: a write through [chunk->] is a write to
    the chunk owned by that table entry. *)
Definition deref (chunk_id : Z) : M array chunk_t :=
  let* p := load_chunk chunk_id in
  match p with
  | Some ch => ret ch
  | None => undefined
  end.

Definition update_chunk (chunk_id : Z) (f : chunk_t → chunk_t) : M array unit :=
  let* ch := deref chunk_id in store_chunk chunk_id (Some (f ch)).

Definition set_count (n : Z) (ch : chunk_t) : chunk_t :=
  {| count := n; values := values ch |}.

Definition set_value (i : Z) (v : value_t) (ch : chunk_t) : chunk_t :=
  {| count := count ch; values := <[Z.to_nat i := v]> (values ch) |}.

Definition get (key : Z) : M array value_t :=
  let* chunk_id := chunk_for_key key in
  let* chunk := load_chunk chunk_id in
  match chunk with
  | Some ch => array_at (values ch) (index_for_key key)
  | None => ret value_t_default
  end.

Definition set (key : Z) (value : value_t) : M array unit :=
  let* chunk_id := chunk_for_key key in
  let* chunk := load_chunk chunk_id in
  if negb (to_bool value) && is_null chunk then
    ret tt
  else
    when (is_null chunk)
      (let* ch := new_chunk_t in store_chunk chunk_id (Some ch));;
    let* ch := deref chunk_id in
    let* old := array_at (values ch) (index_for_key key) in
    when (to_bool old)
      (update_chunk chunk_id (λ ch, set_count (size_wrap (count ch - 1)) ch));;
    update_chunk chunk_id (set_value (index_for_key key) value);;
    when (to_bool value)
      (update_chunk chunk_id (λ ch, set_count (size_wrap (count ch + 1)) ch));;
    let* ch := deref chunk_id in
    when (count ch =? 0)
      (store_chunk chunk_id None;; delete_chunk).

(** Lines 90 to 96 of the header as one function of the chunk written
    to: [old] is the value found in the slot. *)
Definition chunk_after_write (i : Z) (value old : value_t) (ch : chunk_t) : chunk_t :=
  let c1 := if to_bool old then size_wrap (count ch - 1) else count ch in
  {| count := if to_bool value then size_wrap (c1 + 1) else c1;
     values := <[Z.to_nat i := value]> (values ch) |}.

(** A client that calls [set] for each pair of a list, in order. *)
Fixpoint set_all (ops : list (Z * value_t)) : M array unit :=
  match ops with
  | [] => ret tt
  | (key, value) :: ops => set key value;; set_all ops
  end.

(** The keys of such a client are [size_t] values. *)
Definition size_t_keys (ops : list (Z * value_t)) : Prop :=
  Forall (λ op, 0 ≤ op.1 ≤ SIZE_MAX) ops.

(** The states an object can be in: those a client reaches from the
    constructor by calls of [set] that return. *)
Definition reachable (a : array) : Prop :=
  ∃ ops, size_t_keys ops ∧ set_all ops ctor = Ok (tt, a).

(** The value last written to [key] by the calls [ops], or [d] if there
    is no such call. *)
Definition written (ops : list (Z * value_t)) (key : Z) (d : value_t) : value_t :=
  foldl (λ acc op, if decide (op.1 = key) then op.2 else acc) d ops.

(** The calls of a list with their keys as [chunk_for_key] and
    [index_for_key] see them. *)
Definition narrow_ops (ops : list (Z * value_t)) : list (Z * value_t) :=
  (λ op, (narrowed op.1, op.2)) <$> ops.


(** The number of slots of a [values] array that convert to [true]. *)
Fixpoint num_truthy (vs : list value_t) : Z :=
  match vs with
  | [] => 0
  | v :: vs => (if to_bool v then 1 else 0) + num_truthy vs
  end.

(** Whether the table entry [chunk_id] holds a chunk. *)
Definition allocated (a : array) (chunk_id : Z) : bool :=
  match chunks a !! Z.to_nat chunk_id with
  | Some (Some _) => true
  | _ => false
  end.

(** The representation invariant: the table has [num_chunks] entries,
    and every chunk it holds has [chunk_size] slots, a [count] equal to
    the number of its truthy slots, and a [count] other than zero. *)
Definition chunk_ok (ch : chunk_t) : Prop :=
  length (values ch) = Z.to_nat chunk_size ∧
  count ch = num_truthy (values ch) ∧
  count ch ≠ 0.

Definition wf (a : array) : Prop :=
  length (chunks a) = Z.to_nat num_chunks ∧
  ∀ i ch, chunks a !! i = Some (Some ch) → chunk_ok ch.

(** The value held in the slot with number [key], that is slot
    [key mod chunk_size] of chunk [key / chunk_size], as a pure function
    of the state: what [get] returns for a key that [chunk_for_key] and
    [index_for_key] see as [key]. *)
Definition slot (a : array) (key : Z) : value_t :=
  match chunks a !! Z.to_nat (key / chunk_size) with
  | Some (Some ch) =>
      default value_t_default (values ch !! Z.to_nat (key mod chunk_size))
  | _ => value_t_default
  end.

(** [chunks[i] = p] where no read of [chunks[i]] comes first: outside the
    table the behaviour is undefined. *)
Definition table_store (i : Z) (p : option chunk_t) : M array unit :=
  λ a, if decide (Z.to_nat i < length (chunks a))%nat
       then store_chunk i p a else Undefined.

(** The constructor as the header writes it: [new chunk_t *[num_chunks]]
    gives a table of [num_chunks] pointers of indeterminate value,
    [fresh], and the loop stores a null pointer in each entry. *)
Definition ctor_from (fresh : list (option chunk_t)) : result (unit * array) :=
  for_upto num_chunks (λ i, table_store i None)
    {| chunks := fresh; news := 0; deletes := 0 |}.

(** [delete p]: nothing happens for a null pointer. *)
Definition delete_ptr (p : option chunk_t) : M array unit :=
  when (negb (is_null p)) delete_chunk.

(** The destructor: [delete chunks[i]] for each entry, then
    [delete[] chunks], after which there is no table. *)
Definition dtor : M array unit :=
  for_upto num_chunks (λ i, let* p := load_chunk i in delete_ptr p);;
  modify (with_chunks (λ _, [])).

(** The number of chunks a table holds. *)
Fixpoint num_live (tbl : list (option chunk_t)) : nat :=
  match tbl with
  | [] => 0
  | p :: tbl => ((if is_null p then 0 else 1) + num_live tbl)%nat
  end.

(** The chunks allocated so far are those deleted so far and those the
    table holds. *)
Definition balanced (a : array) : Prop :=
  news a = (deletes a + num_live (chunks a))%nat.

(** The numbers whose chunk the table has: the slot numbers. *)
Definition accepted (key : Z) : Prop :=
  0 ≤ key ∧ key / chunk_size < num_chunks.
End defs.
Arguments chunk_t value_t : clear implicits.
Arguments array value_t : clear implicits.
End two_level_array_t.

(** ** [two_level_nevershrink_array_t] *)

Module two_level_nevershrink_array_t.
Section defs.
Context {value_t : Type} {VT : ValueT value_t} {P : Params}.

(** [static const size_t num_chunks = max_size / chunk_size + 1;] *)
Definition num_chunks : Z := size_wrap (max_size / chunk_size + 1).

(** [struct chunk_t { value_t values[chunk_size]; }] *)
Record chunk_t := { values : list value_t }.

Definition chunk_t_ctor : chunk_t :=
  {| values := replicate (Z.to_nat chunk_size) value_t_default |}.

(** The object; [news] counts the evaluations of [new chunk_t].  No
    member function other than the destructor deletes a chunk. *)
Record array := {
  chunks : list (option chunk_t);
  news : nat
}.

(** [chunk_for_key] and [index_for_key] take a [key_t]: the [size_t] key
    of the caller is converted at the call, and the [key_t] is converted
    to [size_t] for the division by the [size_t] constant [chunk_size]. *)
Definition chunk_for_key (key : Z) : M array Z :=
  let chunk_id := size_wrap (key_t key) / chunk_size in
  rassert (chunk_id <? num_chunks);;
  ret chunk_id.

Definition index_for_key (key : Z) : Z := size_wrap (key_t key) mod chunk_size.

Definition ctor : array :=
  {| chunks := replicate (Z.to_nat num_chunks) None; news := 0 |}.

Definition load_chunk (chunk_id : Z) : M array (option chunk_t) :=
  let* tbl := gets chunks in array_at tbl chunk_id.

Definition store_chunk (chunk_id : Z) (p : option chunk_t) : M array unit :=
  modify (λ a, {| chunks := <[Z.to_nat chunk_id := p]> (chunks a); news := news a |}).

Definition new_chunk_t : M array chunk_t :=
  modify (λ a, {| chunks := chunks a; news := S (news a) |});;
  ret chunk_t_ctor.

(** A [value_t &] returned by [operator[]] designates one slot of one
    chunk: [chunks[ref_chunk]->values[ref_index]]. *)
Record slot_ref := { ref_chunk : Z; ref_index : Z }.

(** [value_t &operator[](size_t key)] *)
Definition subscript (key : Z) : M array slot_ref :=
  let* chunk_id := chunk_for_key key in
  let* chunk := load_chunk chunk_id in
  match chunk with
  | Some _ =>
      ret {| ref_chunk := chunk_id; ref_index := index_for_key key |}
  | None =>
      let* ch := new_chunk_t in
      store_chunk chunk_id (Some ch);;
      ret {| ref_chunk := chunk_id; ref_index := index_for_key key |}
  end.

(** What a caller does with the reference: read it, or assign to it.  A
    reference whose chunk is gone, or whose index is outside the chunk,
    has undefined behaviour. *)
Definition deref (chunk_id : Z) : M array chunk_t :=
  let* p := load_chunk chunk_id in
  match p with
  | Some ch => ret ch
  | None => undefined
  end.

Definition load_ref (r : slot_ref) : M array value_t :=
  let* ch := deref (ref_chunk r) in
  array_at (values ch) (ref_index r).

Definition store_ref (r : slot_ref) (v : value_t) : M array unit :=
  let* ch := deref (ref_chunk r) in
  array_at (values ch) (ref_index r);;
  store_chunk (ref_chunk r)
    (Some {| values := <[Z.to_nat (ref_index r) := v]> (values ch) |}).

(** The statements of a client: [container[key];], [container[key] = v;]
    and [r = v;] for a reference [r] obtained earlier. *)
Inductive stmt :=
  | Access (key : Z)
  | Assign (key : Z) (v : value_t)
  | AssignRef (r : slot_ref) (v : value_t).

Definition exec (st : stmt) : M array unit :=
  match st with
  | Access key => subscript key;; ret tt
  | Assign key v => let* r := subscript key in store_ref r v
  | AssignRef r v => store_ref r v
  end.

Fixpoint exec_all (sts : list stmt) : M array unit :=
  match sts with
  | [] => ret tt
  | st :: sts => exec st;; exec_all sts
  end.

Definition allocated (a : array) (chunk_id : Z) : bool :=
  match chunks a !! Z.to_nat chunk_id with
  | Some (Some _) => true
  | _ => false
  end.

(** The states a client reaches from the constructor. *)
Definition reachable (a : array) : Prop :=
  ∃ sts, exec_all sts ctor = Ok (tt, a).

(** The representation invariant: [num_chunks] table entries, and
    [chunk_size] slots in every chunk. *)
Definition wf (a : array) : Prop :=
  length (chunks a) = Z.to_nat num_chunks ∧
  ∀ i ch, chunks a !! i = Some (Some ch) →
          length (values ch) = Z.to_nat chunk_size.

(** [chunks[i] = p] where no read of [chunks[i]] comes first. *)
Definition table_store (i : Z) (p : option chunk_t) : M array unit :=
  λ a, if decide (Z.to_nat i < length (chunks a))%nat
       then store_chunk i p a else Undefined.

(** The constructor as the header writes it, from a table [fresh] of
    [num_chunks] pointers of indeterminate value. *)
Definition ctor_from (fresh : list (option chunk_t)) : result (unit * array) :=
  for_upto num_chunks (λ i, table_store i None)
    {| chunks := fresh; news := 0 |}.

(** The number of chunks a table holds. *)
Fixpoint num_live (tbl : list (option chunk_t)) : nat :=
  match tbl with
  | [] => 0
  | p :: tbl => ((if is_null p then 0 else 1) + num_live tbl)%nat
  end.

(** The value held in the slot with number [key], that is slot
    [key mod chunk_size] of chunk [key / chunk_size], as a pure function
    of the state; a slot of a chunk that is not allocated yet will read as
    the default value once it is. *)
Definition slot (a : array) (key : Z) : value_t :=
  match chunks a !! Z.to_nat (key / chunk_size) with
  | Some (Some ch) =>
      default value_t_default (values ch !! Z.to_nat (key mod chunk_size))
  | _ => value_t_default
  end.

(** The reference to the slot with number [n], and the reference
    [operator[]] returns for [key]: that to the slot whose number is the
    key as [chunk_for_key] and [index_for_key] see it. *)
Definition ref_of_slot (n : Z) : slot_ref :=
  {| ref_chunk := n / chunk_size; ref_index := n mod chunk_size |}.

Definition ref_of_key (key : Z) : slot_ref := ref_of_slot (narrowed key).

(** Whether a statement assigns to the slot with number [n], and the
    value the statements of a list leave in that slot, starting from [d]. *)
Definition assigned (st : stmt) (n : Z) : option value_t :=
  match st with
  | Access _ => None
  | Assign key v => if decide (narrowed key = n) then Some v else None
  | AssignRef r v =>
      if decide (ref_chunk r = n / chunk_size ∧ ref_index r = n mod chunk_size)
      then Some v else None
  end.

Definition written (sts : list stmt) (n : Z) (d : value_t) : value_t :=
  foldl (λ acc st, default acc (assigned st n)) d sts.

(** Statements whose keys are [size_t] values and whose references
    designate a slot: a chunk index and an index within the chunk. *)
Definition stmt_ok (st : stmt) : Prop :=
  match st with
  | Access key | Assign key _ => 0 ≤ key
  | AssignRef r _ => 0 ≤ ref_chunk r ∧ 0 ≤ ref_index r < chunk_size
  end.

(** The [container[key]] of an expression that reads the slot. *)
Definition read (key : Z) : M array value_t :=
  let* r := subscript key in load_ref r.

(** The destructor: [delete chunks[i]] for each entry, then
    [delete[] chunks].  Its state is the object and the number of chunks
    deleted so far; [delete] of a null pointer does nothing. *)
Definition delete_ptr (p : option chunk_t) : M (array * nat) unit :=
  when (negb (is_null p)) (modify (λ s, (s.1, S s.2))).

Definition dtor : M (array * nat) unit :=
  for_upto num_chunks
    (λ i, let* p := (λ s, array_at (chunks s.1) i s) in delete_ptr p);;
  modify (λ s, ({| chunks := []; news := news s.1 |}, s.2)).
End defs.
Arguments chunk_t value_t : clear implicits.
Arguments array value_t : clear implicits.
Arguments stmt value_t : clear implicits.
End two_level_nevershrink_array_t.

(** ** A concrete instance

    Pointers as values, [max_size = 16] and [chunk_size = 4]; the state of
    a [two_level_array_t] after [set(5, 1); set(6, 2);] and that of a
    [two_level_nevershrink_array_t] after [container[5] = 7;]. *)

Definition scenario_state : two_level_array_t.array Z :=
  {| two_level_array_t.chunks :=
       [None;
        Some {| two_level_array_t.count := 2;
                two_level_array_t.values := [0; 1; 2; 0] |};
        None; None; None];
     two_level_array_t.news := 1;
     two_level_array_t.deletes := 0 |}.

Definition nevershrink_state : two_level_nevershrink_array_t.array Z :=
  {| two_level_nevershrink_array_t.chunks :=
       [None;
        Some {| two_level_nevershrink_array_t.values := [0; 7; 0; 0] |};
        None; None; None];
     two_level_nevershrink_array_t.news := 1 |}.

(** ** The ceiling of a quotient, as the specification words it

    [is_ceil_div a b n] says that [n] is the least integer that is at
    least the rational [a / b], for a positive [b]. *)
Definition is_ceil_div (a b n : Z) : Prop := (n - 1) * b < a ≤ n * b.

(** * Properties *)

(** ** The monad *)

Lemma bind_Ok {St A B} (m : M St A) (k : A → M St B) s x s' :
  m s = Ok (x, s') → bind m k s = k x s'.
Proof. unfold bind. by intros ->. Qed.

Lemma bind_Ok_inv {St A B} (m : M St A) (k : A → M St B) s r :
  bind m k s = Ok r → ∃ x s', m s = Ok (x, s') ∧ k x s' = Ok r.
Proof.
  unfold bind. destruct (m s) as [[x s']| |]; [|done..]. eauto.
Qed.

Lemma bind_Abort_iff {St A B} (m : M St A) (k : A → M St B) s :
  bind m k s = Abort ↔
  m s = Abort ∨ ∃ x s', m s = Ok (x, s') ∧ k x s' = Abort.
Proof.
  unfold bind. destruct (m s) as [[x s']| |].
  - split; [eauto|]. intros [?|(? & ? & ? & ?)]; [done|]. by simplify_eq.
  - split; [eauto|done].
  - split; [done|]. intros [?|(? & ? & ? & ?)]; done.
Qed.

Lemma array_at_Ok {St A} (a : list A) (i : Z) (x : A) (s : St) :
  a !! Z.to_nat i = Some x → array_at a i s = Ok (x, s).
Proof. unfold array_at. by intros ->. Qed.

Lemma array_at_not_Abort {St A} (a : list A) (i : Z) (s : St) :
  array_at a i s ≠ Abort.
Proof. unfold array_at. by destruct (a !! Z.to_nat i). Qed.

(** Which computations cannot stop in [rassert]. *)

Lemma no_abort_ret {St A} (x : A) : no_abort (ret (St:=St) x).
Proof. by intros s. Qed.

Lemma no_abort_bind {St A B} (m : M St A) (k : A → M St B) :
  no_abort m → (∀ x, no_abort (k x)) → no_abort (bind m k).
Proof.
  intros Hm Hk s. unfold bind. specialize (Hm s).
  destruct (m s) as [[x s']| |]; [apply Hk|done..].
Qed.

Lemma no_abort_gets {St A} (f : St → A) : no_abort (gets f).
Proof. by intros s. Qed.

Lemma no_abort_modify {St} (f : St → St) : no_abort (modify f).
Proof. by intros s. Qed.

Lemma no_abort_undefined {St A} : no_abort (undefined (St:=St) (A:=A)).
Proof. by intros s. Qed.

Lemma no_abort_array_at {St A} (a : list A) i : no_abort (array_at (St:=St) a i).
Proof. intros s. apply array_at_not_Abort. Qed.

Lemma no_abort_when {St} c (m : M St unit) : no_abort m → no_abort (when c m).
Proof. intros Hm. destruct c; [done|apply no_abort_ret]. Qed.

Lemma no_abort_option {St A B} (o : option A) (f : A → M St B) (m : M St B) :
  (∀ x, no_abort (f x)) → no_abort m →
  no_abort (match o with Some x => f x | None => m end).
Proof. by destruct o. Qed.

Create HintDb no_abort discriminated.
#[export] Hint Resolve no_abort_ret no_abort_gets no_abort_modify
  no_abort_undefined no_abort_array_at no_abort_when no_abort_option
  : no_abort.

Ltac no_abort_step :=
  lazymatch goal with
  | |- no_abort (bind _ _) => apply no_abort_bind; [|intros ?; cbv beta]
  | |- no_abort (when _ _) => apply no_abort_when
  | |- no_abort (if ?c then _ else _) => destruct c
  | |- _ => solve [auto with no_abort]
  end.
Ltac solve_no_abort := repeat no_abort_step.

(** Once [m] has returned, [bind m k] aborts exactly when [k] does; when
    [k] cannot abort, [bind m k] aborts exactly when [m] does. *)
Lemma bind_no_abort_iff {St A B} (m : M St A) (k : A → M St B) s :
  (∀ x, no_abort (k x)) → bind m k s = Abort ↔ m s = Abort.
Proof.
  intros Hk. rewrite bind_Abort_iff. split; [|by left].
  intros [?|(x & s' & _ & Habs)]; [done|]. by apply Hk in Habs.
Qed.


(** ** Machine integers *)

Lemma size_wrap_small z : 0 ≤ z ≤ SIZE_MAX → size_wrap z = z.
Proof. unfold size_wrap, SIZE_MAX. intros. apply Z.mod_small. lia. Qed.

Lemma size_wrap_range z : 0 ≤ size_wrap z ≤ SIZE_MAX.
Proof.
  unfold size_wrap, SIZE_MAX, SIZE_WIDTH.
  pose proof (Z.mod_pos_bound z (2 ^ 64)). lia.
Qed.

(** ** Keys as the helper functions see them *)

Lemma key_t_range z : - 2 ^ 31 ≤ key_t z < 2 ^ 31.
Proof. unfold key_t. pose proof (Z.mod_pos_bound (z + 2 ^ 31) (2 ^ 32)). lia. Qed.

Lemma key_t_fix z : - 2 ^ 31 ≤ z < 2 ^ 31 → key_t z = z.
Proof. unfold key_t. intros Hz. rewrite Z.mod_small; lia. Qed.

Lemma key_t_small z : 0 ≤ z ≤ INT_MAX → key_t z = z.
Proof. unfold INT_MAX. intros Hz. apply key_t_fix. lia. Qed.

Lemma key_t_add z m : key_t (z + m * 2 ^ 32) = key_t z.
Proof.
  unfold key_t. f_equal.
  replace (z + m * 2 ^ 32 + 2 ^ 31) with (z + 2 ^ 31 + m * 2 ^ 32) by lia.
  by rewrite Z.mod_add.
Qed.

Lemma key_t_period z : key_t (z + 2 ^ 32) = key_t z.
Proof.
  unfold key_t. f_equal.
  replace (z + 2 ^ 32 + 2 ^ 31) with (z + 2 ^ 31 + 1 * 2 ^ 32) by lia.
  by rewrite Z.mod_add.
Qed.

Lemma key_t_low z : key_t (z mod 2 ^ 32) = key_t z.
Proof.
  unfold key_t. f_equal.
  by rewrite Zplus_mod_idemp_l.
Qed.

Lemma narrowed_range key : 0 ≤ narrowed key ≤ SIZE_MAX.
Proof. apply size_wrap_range. Qed.

Lemma narrowed_small key : 0 ≤ key ≤ INT_MAX → narrowed key = key.
Proof.
  intros Hk. unfold narrowed. rewrite (key_t_small _ Hk).
  apply size_wrap_small. unfold INT_MAX, SIZE_MAX, SIZE_WIDTH in *. lia.
Qed.

(** Keys that differ by [2^32] are one key to the helpers. *)
Lemma narrowed_period key : narrowed (key + 2 ^ 32) = narrowed key.
Proof. unfold narrowed. by rewrite key_t_period. Qed.

(** Narrowing a second time changes nothing: the numbers [narrowed]
    yields are those it leaves alone. *)
Lemma narrowed_idem key : narrowed (narrowed key) = narrowed key.
Proof.
  unfold narrowed. f_equal. pose proof (key_t_range key) as Hr.
  destruct (Z.le_gt_cases 0 (key_t key)) as [Hs|Hl].
  - rewrite size_wrap_small by (unfold SIZE_MAX, SIZE_WIDTH; lia).
    apply key_t_fix. lia.
  - assert (size_wrap (key_t key) = key_t key + 2 ^ 32 * 2 ^ 32) as ->.
    { unfold size_wrap, SIZE_WIDTH.
      rewrite <-(Z.mod_add (key_t key) 1 (2 ^ 64)) by lia.
      rewrite Z.mod_small; lia. }
    rewrite key_t_add. apply key_t_fix. lia.
Qed.

(** Every narrowed key is the narrowed form of a key below [2^32] that is
    no larger than it. *)
Lemma narrowed_low key :
  ∃ k, 0 ≤ k < 2 ^ 32 ∧ narrowed k = narrowed key ∧ k ≤ narrowed key.
Proof.
  exists (key mod 2 ^ 32).
  pose proof (Z.mod_pos_bound key (2 ^ 32)) as Hb.
  split; [lia|]. split; [unfold narrowed; by rewrite key_t_low|].
  unfold narrowed. rewrite <-(key_t_low key).
  destruct (Z.le_gt_cases (key mod 2 ^ 32) INT_MAX) as [Hs|Hl].
  - rewrite key_t_small by lia. rewrite size_wrap_small; [lia|].
    unfold INT_MAX, SIZE_MAX, SIZE_WIDTH in *. lia.
  - assert (key_t (key mod 2 ^ 32) = key mod 2 ^ 32 - 2 ^ 32) as ->.
    { unfold key_t, INT_MAX in *.
      replace (key mod 2 ^ 32 + 2 ^ 31)
        with (key mod 2 ^ 32 - 2 ^ 31 + 1 * 2 ^ 32) by lia.
      rewrite Z.mod_add, (Z.mod_small (_ - _)); lia. }
    unfold size_wrap, SIZE_WIDTH, INT_MAX in *.
    rewrite <-(Z.mod_add (key mod 2 ^ 32 - 2 ^ 32) 1 (2 ^ 64)) by lia.
    rewrite (Z.mod_small (_ + _)); lia.
Qed.

Lemma narrowed_div_nonneg key d : 0 < d → 0 ≤ narrowed key / d.
Proof. intros Hd. apply Z.div_pos; [apply narrowed_range|done]. Qed.

(** ** [two_level_array_t] *)

Module two_level_array_facts.
Import two_level_array_t.
Section facts.
Context {value_t : Type} {VT : ValueT value_t} {P : Params}.
Implicit Types (a : array value_t) (ch : chunk_t value_t)
  (vs : list value_t) (v d : value_t) (key k : Z)
  (ops : list (Z * value_t)).

(** *** Counting truthy slots *)

Lemma num_truthy_bounds vs : 0 ≤ num_truthy vs ≤ Z.of_nat (length vs).
Proof. induction vs as [|v vs IH]; simpl; [lia|]. destruct (to_bool v); lia. Qed.

Lemma num_truthy_replicate n : num_truthy (replicate n value_t_default) = 0.
Proof. induction n as [|n IH]; simpl; [done|]. rewrite bool_default. lia. Qed.

Lemma num_truthy_insert vs (i : nat) v old :
  vs !! i = Some old →
  num_truthy (<[i:=v]> vs) =
  num_truthy vs - (if to_bool old then 1 else 0) + (if to_bool v then 1 else 0).
Proof.
  revert i. induction vs as [|x vs IH]; intros [|i] Hi; simplify_eq/=.
  - lia.
  - rewrite (IH _ Hi). lia.
Qed.

Lemma num_truthy_zero vs (i : nat) v :
  num_truthy vs = 0 → vs !! i = Some v → v = value_t_default.
Proof.
  revert i. induction vs as [|x vs IH]; intros [|i] Hz Hi; simplify_eq/=.
  - apply bool_other. pose proof (num_truthy_bounds vs).
    destruct (to_bool v); [lia|done].
  - apply (IH i); [|done]. pose proof (num_truthy_bounds vs).
    destruct (to_bool x); lia.
Qed.

Lemma num_truthy_pos vs (i : nat) v :
  vs !! i = Some v → to_bool v = true → 0 < num_truthy vs.
Proof.
  revert i. induction vs as [|x vs IH]; intros [|i] Hi Hv; simplify_eq/=.
  - rewrite Hv. pose proof (num_truthy_bounds vs). lia.
  - pose proof (IH _ Hi Hv). destruct (to_bool x); lia.
Qed.

(** *** Keys, chunk ids and indices *)

Lemma num_chunks_eq : params_ok → num_chunks = max_size / chunk_size + 1.
Proof.
  intros (Hc & Hm & Hn). unfold num_chunks. apply size_wrap_small.
  split; [|done]. assert (0 ≤ max_size / chunk_size); [|lia].
  apply Z.div_pos; lia.
Qed.

Lemma params_ok_chunk_size : params_ok → 0 < chunk_size ≤ SIZE_MAX.
Proof. by intros (? & _). Qed.

(** [params_ok] leaves out one pair of [size_t] parameters with a positive
    [chunk_size]: [max_size = SIZE_MAX] with [chunk_size = 1], for which
    [max_size / chunk_size + 1] wraps around to zero. *)
Lemma params_ok_iff :
  params_ok ↔
  0 < chunk_size ≤ SIZE_MAX ∧ 0 ≤ max_size ≤ SIZE_MAX ∧
  ¬ (chunk_size = 1 ∧ max_size = SIZE_MAX).
Proof.
  unfold params_ok. split.
  - intros (Hc & Hm & Hn). repeat split; try lia.
    intros [Hc1 Hm1]. rewrite Hc1, Hm1, Z.div_1_r in Hn. lia.
  - intros (Hc & Hm & Hne). repeat split; try lia.
    destruct (decide (chunk_size = 1)) as [Hc1|Hc1].
    + rewrite Hc1, Z.div_1_r. lia.
    + assert (max_size / chunk_size < max_size ∨ max_size = 0) as [? | ->].
      { destruct (decide (max_size = 0)); [by right|left].
        apply Z.div_lt; lia. }
      * lia.
      * rewrite Z.div_0_l by lia. unfold SIZE_MAX, SIZE_WIDTH. lia.
Qed.


Lemma index_in_chunk k :
  0 < chunk_size → (Z.to_nat (k mod chunk_size) < Z.to_nat chunk_size)%nat.
Proof. intros. pose proof (Z.mod_pos_bound k chunk_size). lia. Qed.

Lemma key_split k k' :
  0 < chunk_size → 0 ≤ k → 0 ≤ k' →
  Z.to_nat (k / chunk_size) = Z.to_nat (k' / chunk_size) →
  Z.to_nat (k mod chunk_size) = Z.to_nat (k' mod chunk_size) →
  k = k'.
Proof.
  intros Hc Hk Hk' Hq Hr.
  pose proof (Z.mod_pos_bound k chunk_size Hc).
  pose proof (Z.mod_pos_bound k' chunk_size Hc).
  assert (0 ≤ k / chunk_size) by (apply Z.div_pos; lia).
  assert (0 ≤ k' / chunk_size) by (apply Z.div_pos; lia).
  rewrite (Z.div_mod k chunk_size), (Z.div_mod k' chunk_size) by lia.
  assert (k / chunk_size = k' / chunk_size) as -> by lia.
  assert (k mod chunk_size = k' mod chunk_size) as -> by lia.
  done.
Qed.

Lemma chunk_for_key_Ok key a :
  narrowed key / chunk_size < num_chunks →
  chunk_for_key key a = Ok (narrowed key / chunk_size, a).
Proof.
  intros Hlt. unfold chunk_for_key, bind, rassert, ret.
  change (size_wrap (key_t key)) with (narrowed key).
  by rewrite (proj2 (Z.ltb_lt _ _) Hlt).
Qed.

Lemma chunk_for_key_inv key a r :
  chunk_for_key key a = Ok r →
  r = (narrowed key / chunk_size, a) ∧ narrowed key / chunk_size < num_chunks.
Proof.
  unfold chunk_for_key, bind, rassert, ret.
  change (size_wrap (key_t key)) with (narrowed key).
  destruct (Z.ltb_spec (narrowed key / chunk_size) num_chunks); [|done].
  intros [= <-]. done.
Qed.

Lemma index_for_key_eq key : index_for_key key = narrowed key mod chunk_size.
Proof. done. Qed.

(** A key up to [INT_MAX] reaches the helper functions as it is. *)
Lemma chunk_for_key_small key a :
  0 ≤ key ≤ INT_MAX → key / chunk_size < num_chunks →
  chunk_for_key key a = Ok (key / chunk_size, a).
Proof.
  intros Hk Hlt. rewrite <-(narrowed_small key Hk) at 2.
  apply chunk_for_key_Ok. by rewrite narrowed_small.
Qed.

(** *** The steps of [set] and [get] *)

Ltac lookup_ins :=
  simpl;
  rewrite ?list_lookup_insert_eq by (rewrite ?length_insert; assumption);
  first [reflexivity | eassumption].

Lemma load_chunk_Ok a c p :
  chunks a !! Z.to_nat c = Some p → load_chunk c a = Ok (p, a).
Proof. intros Hp. unfold load_chunk, bind, gets. by apply array_at_Ok. Qed.

Lemma deref_Ok a c ch :
  chunks a !! Z.to_nat c = Some (Some ch) → deref c a = Ok (ch, a).
Proof. intros Hp. unfold deref. by rewrite (bind_Ok _ _ _ _ _ (load_chunk_Ok _ _ _ Hp)). Qed.

Lemma update_chunk_Ok a c ch f :
  chunks a !! Z.to_nat c = Some (Some ch) →
  update_chunk c f a = Ok (tt, with_chunks <[Z.to_nat c := Some (f ch)]> a).
Proof. intros Hp. unfold update_chunk. by rewrite (bind_Ok _ _ _ _ _ (deref_Ok _ _ _ Hp)). Qed.

Ltac mstep :=
  erewrite bind_Ok;
  [| first [ apply deref_Ok; lookup_ins
           | apply update_chunk_Ok; lookup_ins
           | apply array_at_Ok; eassumption
           | reflexivity ] ].

Lemma set_noop key v a :
  narrowed key / chunk_size < num_chunks →
  chunks a !! Z.to_nat (narrowed key / chunk_size) = Some None →
  to_bool v = false →
  set key v a = Ok (tt, a).
Proof.
  intros Hlt Hp Hv. unfold set.
  rewrite (bind_Ok _ _ _ _ _ (chunk_for_key_Ok _ _ Hlt)).
  rewrite (bind_Ok _ _ _ _ _ (load_chunk_Ok _ _ _ Hp)).
  by rewrite Hv.
Qed.

Lemma set_write key v a p old :
  narrowed key / chunk_size < num_chunks →
  chunks a !! Z.to_nat (narrowed key / chunk_size) = Some p →
  negb (to_bool v) && is_null p = false →
  values (default chunk_t_ctor p) !! Z.to_nat (narrowed key mod chunk_size) = Some old →
  set key v a = Ok (tt,
    let ch' := chunk_after_write (narrowed key mod chunk_size) v old
                 (default chunk_t_ctor p) in
    {| chunks := <[Z.to_nat (narrowed key / chunk_size) :=
                    if count ch' =? 0 then None else Some ch']> (chunks a);
       news := if is_null p then S (news a) else news a;
       deletes := if count ch' =? 0 then S (deletes a) else deletes a |}).
Proof.
  intros Hlt Hp Hcond Hold. unfold set.
  rewrite (bind_Ok _ _ _ _ _ (chunk_for_key_Ok _ _ Hlt)).
  rewrite (bind_Ok _ _ _ _ _ (load_chunk_Ok _ _ _ Hp)).
  rewrite Hcond. pose proof (lookup_lt_Some _ _ _ Hp) as Hlen.
  set (c := Z.to_nat (narrowed key / chunk_size)) in *.
  rewrite !index_for_key_eq. set (i := narrowed key mod chunk_size) in *.
  unfold chunk_after_write.
  destruct a as [tbl n d]; simpl in *.
  destruct p as [ch|]; simpl in *.
  - destruct (to_bool old) eqn:Eold, (to_bool v) eqn:Ev; cbn [when];
      repeat (rewrite ?Eold, ?Ev; cbn [when]; mstep); simpl;
      match goal with |- context [?x =? 0] => destruct (x =? 0) end;
      subst c; unfold when, bind, store_chunk, delete_chunk, modify, with_chunks, ret;
      simpl; rewrite ?list_insert_insert_eq; reflexivity.
  - rewrite andb_true_r in Hcond. apply negb_false_iff in Hcond.
    destruct (to_bool old) eqn:Eold; cbn [when];
      repeat (rewrite ?Eold, ?Hcond; cbn [when]; mstep); simpl.
      all: try match goal with |- context [?x =? 0] => destruct (x =? 0) end;
      subst c; unfold when, bind, store_chunk, delete_chunk, modify, with_chunks, ret;
      simpl; rewrite ?list_insert_insert_eq; reflexivity.
Qed.

(** *** The representation invariant *)

Lemma ctor_wf : wf ctor.
Proof.
  split; simpl.
  - by rewrite length_replicate.
  - intros i ch Hi. apply lookup_replicate in Hi as [? _]. done.
Qed.

Lemma wf_lookup a c :
  wf a → 0 ≤ c < num_chunks → ∃ p, chunks a !! Z.to_nat c = Some p.
Proof.
  intros [Hlen _] Hc. apply lookup_lt_is_Some. rewrite Hlen. lia.
Qed.

Lemma chunk_t_ctor_shape :
  length (values chunk_t_ctor) = Z.to_nat chunk_size ∧
  count chunk_t_ctor = num_truthy (values chunk_t_ctor).
Proof. simpl. by rewrite length_replicate, num_truthy_replicate. Qed.

Lemma wf_chunk_shape a c p :
  wf a → chunks a !! c = Some p →
  length (values (default chunk_t_ctor p)) = Z.to_nat chunk_size ∧
  count (default chunk_t_ctor p) = num_truthy (values (default chunk_t_ctor p)).
Proof.
  intros [_ Hch] Hp. destruct p as [ch|]; [|apply chunk_t_ctor_shape].
  destruct (Hch _ _ Hp) as (? & ? & ?). done.
Qed.

Lemma chunk_after_write_count i v old ch :
  0 < chunk_size ≤ SIZE_MAX →
  length (values ch) = Z.to_nat chunk_size →
  count ch = num_truthy (values ch) →
  values ch !! Z.to_nat i = Some old →
  count (chunk_after_write i v old ch) =
  num_truthy (values (chunk_after_write i v old ch)).
Proof.
  intros Hc Hlen Hcnt Hold. unfold chunk_after_write; simpl.
  rewrite (num_truthy_insert _ _ _ _ Hold).
  pose proof (num_truthy_bounds (values ch)) as Hb.
  pose proof (num_truthy_bounds (<[Z.to_nat i:=v]> (values ch))) as Hb'.
  rewrite (num_truthy_insert _ _ _ _ Hold), length_insert in Hb'.
  rewrite Hcnt. destruct (to_bool old) eqn:Eold.
  - pose proof (num_truthy_pos _ _ _ Hold Eold).
    rewrite (size_wrap_small (num_truthy (values ch) - 1)) by lia.
    destruct (to_bool v); [rewrite size_wrap_small|]; lia.
  - destruct (to_bool v); [rewrite size_wrap_small|]; lia.
Qed.

Lemma all_default vs (i : nat) :
  num_truthy vs = 0 → default value_t_default (vs !! i) = value_t_default.
Proof.
  intros Hz. destruct (vs !! i) as [x|] eqn:Hx; [|done].
  simpl. by eapply num_truthy_zero.
Qed.

Lemma slot_lookup a k p :
  chunks a !! Z.to_nat (k / chunk_size) = Some p →
  slot a k =
  default value_t_default
    (values (default chunk_t_ctor p) !! Z.to_nat (k mod chunk_size)).
Proof.
  intros Hp. unfold slot. rewrite Hp. destruct p as [ch|]; [done|].
  simpl. symmetry. apply all_default, num_truthy_replicate.
Qed.

(** [get] returns what the slot of the narrowed key holds. *)
Lemma get_slot a key :
  0 < chunk_size → wf a → narrowed key / chunk_size < num_chunks →
  get key a = Ok (slot a (narrowed key), a).
Proof.
  intros Hc Hwf Hlt.
  destruct (wf_lookup _ _ Hwf (conj (narrowed_div_nonneg key _ Hc) Hlt)) as [p Hp].
  unfold get. rewrite (bind_Ok _ _ _ _ _ (chunk_for_key_Ok _ _ Hlt)).
  rewrite (bind_Ok _ _ _ _ _ (load_chunk_Ok _ _ _ Hp)).
  unfold slot. rewrite Hp. destruct p as [ch|]; [|done].
  destruct Hwf as [_ Hch]. destruct (Hch _ _ Hp) as (Hlen & _).
  rewrite index_for_key_eq.
  destruct (lookup_lt_is_Some_2 (values ch) (Z.to_nat (narrowed key mod chunk_size)))
    as [x Hx]; [rewrite Hlen; by apply index_in_chunk|].
  rewrite Hx. by apply array_at_Ok.
Qed.


(** What one call of [set] does to a well-formed object: it returns, the
    invariant holds again, the slot of the narrowed key holds [v] and
    every other slot is as before, the other table entries are untouched,
    and the two counters move with the allocation state of the chunk
    written to. *)
Lemma set_spec a key v :
  0 < chunk_size ≤ SIZE_MAX → wf a → narrowed key / chunk_size < num_chunks →
  ∃ a', set key v a = Ok (tt, a') ∧ wf a' ∧
    (∀ k', 0 ≤ k' → slot a' k' = if decide (k' = narrowed key) then v else slot a k') ∧
    (∀ c', c' ≠ Z.to_nat (narrowed key / chunk_size) → chunks a' !! c' = chunks a !! c') ∧
    news a' =
      (if negb (allocated a (narrowed key / chunk_size)) && allocated a' (narrowed key / chunk_size)
       then S (news a) else news a) ∧
    deletes a' =
      (if allocated a (narrowed key / chunk_size) && negb (allocated a' (narrowed key / chunk_size))
       then S (deletes a) else deletes a).
Proof.
  intros Hc Hwf Hlt. pose proof (proj1 (narrowed_range key)) as Hkey.
  assert (0 ≤ narrowed key / chunk_size) as Hq by (apply Z.div_pos; lia).
  destruct (wf_lookup _ _ Hwf (conj Hq Hlt)) as [p Hp].
  destruct (wf_chunk_shape _ _ _ Hwf Hp) as [Hlen Hcnt].
  set (ch0 := default chunk_t_ctor p) in *.
  destruct (lookup_lt_is_Some_2 (values ch0) (Z.to_nat (narrowed key mod chunk_size)))
    as [old Hold]; [rewrite Hlen; apply index_in_chunk; lia|].
  destruct (negb (to_bool v) && is_null p) eqn:Hcond.
  - (* the early return *)
    apply andb_true_iff in Hcond as [Hv Hnull].
    apply negb_true_iff in Hv. destruct p as [|]; [done|].
    exists a. split; [by apply set_noop|]. split; [done|].
    assert (allocated a (narrowed key / chunk_size) = false) as ->
      by (unfold allocated; by rewrite Hp).
    repeat split; [|done..].
    intros k' Hk'. case_decide as Hkk; [subst k'|done].
    unfold slot. rewrite Hp. symmetry. by apply bool_other.
  - rewrite (set_write _ _ _ _ _ Hlt Hp Hcond Hold). fold ch0.
    set (ch' := chunk_after_write (narrowed key mod chunk_size) v old ch0).
    pose proof (chunk_after_write_count (narrowed key mod chunk_size) v old ch0
                  Hc Hlen Hcnt Hold) as Hcnt'. fold ch' in Hcnt'.
    assert (values ch' = <[Z.to_nat (narrowed key mod chunk_size):=v]> (values ch0))
      as Hvals' by done.
    clearbody ch'.
    assert (Z.to_nat (narrowed key / chunk_size) < length (chunks a))%nat as Hin
      by (by eapply lookup_lt_Some).
    eexists. split; [reflexivity|]. simpl.
    assert (∀ n m, allocated
              {| chunks := <[Z.to_nat (narrowed key / chunk_size) :=
                              if count ch' =? 0 then None else Some ch']> (chunks a);
                 news := n; deletes := m |} (narrowed key / chunk_size)
            = negb (count ch' =? 0)) as Halloc'.
    { intros n m. unfold allocated; simpl. rewrite list_lookup_insert_eq by done.
      by destruct (count ch' =? 0). }
    assert (allocated a (narrowed key / chunk_size) = negb (is_null p)) as Halloc.
    { unfold allocated. rewrite Hp. by destruct p. }
    split; [|split; [|split; [|split]]].
    + (* the invariant *)
      destruct Hwf as [Hl Hch]. split; simpl.
      * by rewrite length_insert.
      * intros i ch Hi.
        destruct (decide (i = Z.to_nat (narrowed key / chunk_size))) as [->|Hne].
        -- rewrite list_lookup_insert_eq in Hi by done.
           destruct (Z.eqb_spec (count ch') 0) as [|Hnz]; [done|].
           simplify_eq. repeat split; [|done..].
           by rewrite Hvals', length_insert.
        -- rewrite list_lookup_insert_ne in Hi by done. by eapply Hch.
    + (* the slots *)
      intros k' Hk'.
      destruct (decide (Z.to_nat (k' / chunk_size) = Z.to_nat (narrowed key / chunk_size)))
        as [Hcc|Hcc].
      * assert (slot {| chunks := <[Z.to_nat (narrowed key / chunk_size) :=
                              if count ch' =? 0 then None else Some ch']> (chunks a);
                 news := if is_null p then S (news a) else news a;
                 deletes := if count ch' =? 0 then S (deletes a) else deletes a |} k'
                = default value_t_default
                    (values ch' !! Z.to_nat (k' mod chunk_size))) as ->.
        { unfold slot; simpl. rewrite Hcc, list_lookup_insert_eq by done.
          destruct (Z.eqb_spec (count ch') 0) as [Hz|Hnz]; [|done].
          symmetry. apply all_default. by rewrite <-Hcnt'. }
        rewrite Hvals'. case_decide as Hkk.
        -- subst k'. rewrite list_lookup_insert_eq; [done|].
           rewrite Hlen. apply index_in_chunk. lia.
        -- rewrite list_lookup_insert_ne.
           ++ symmetry. apply slot_lookup. by rewrite Hcc.
           ++ intros Hii. apply Hkk. symmetry. apply key_split; [lia|done..].
      * assert (k' ≠ narrowed key) by (by intros ->).
        rewrite decide_False by done.
        unfold slot; simpl. by rewrite list_lookup_insert_ne.
    + intros c' Hc'. by rewrite list_lookup_insert_ne.
    + rewrite Halloc', Halloc, negb_involutive.
      destruct p as [ch|]; simpl; [done|].
      simpl in Hcond. rewrite andb_true_r in Hcond.
      apply negb_false_iff in Hcond.
      assert (0 < num_truthy (values ch')) as Hpos.
      { eapply (num_truthy_pos _ (Z.to_nat (narrowed key mod chunk_size))); [|done].
        rewrite Hvals'. apply list_lookup_insert_eq.
        rewrite Hlen. apply index_in_chunk. lia. }
      destruct (Z.eqb_spec (count ch') 0); [lia|done].
    + rewrite Halloc', Halloc, negb_involutive.
      destruct p as [ch|]; simpl; [done|].
      simpl in Hcond. rewrite andb_true_r in Hcond.
      apply negb_false_iff in Hcond.
      assert (0 < num_truthy (values ch')) as Hpos.
      { eapply (num_truthy_pos _ (Z.to_nat (narrowed key mod chunk_size))); [|done].
        rewrite Hvals'. apply list_lookup_insert_eq.
        rewrite Hlen. apply index_in_chunk. lia. }
      destruct (Z.eqb_spec (count ch') 0); [lia|done].
Qed.


(** *** Sequences of calls *)

Lemma set_Ok_in_range key v a r :
  set key v a = Ok r → narrowed key / chunk_size < num_chunks.
Proof.
  unfold set. intros Hs. apply bind_Ok_inv in Hs as (c & a1 & Hc & _).
  by apply chunk_for_key_inv in Hc as [_ ?].
Qed.


Lemma set_all_cons_inv key v ops a a' :
  set_all ((key, v) :: ops) a = Ok (tt, a') →
  ∃ a1, set key v a = Ok (tt, a1) ∧ set_all ops a1 = Ok (tt, a') ∧
        narrowed key / chunk_size < num_chunks.
Proof.
  intros Hs. simpl in Hs.
  apply bind_Ok_inv in Hs as ([] & a1 & Hset & Hrest).
  eauto using set_Ok_in_range.
Qed.

Lemma set_all_wf ops a a' :
  0 < chunk_size ≤ SIZE_MAX → wf a → size_t_keys ops →
  set_all ops a = Ok (tt, a') → wf a'.
Proof.
  intros Hc. revert a. induction ops as [|[key v] ops IH]; intros a Hwf Hty Hs.
  - cbv [set_all ret] in Hs. by simplify_eq.
  - apply Forall_cons_1 in Hty as [_ Hty].
    destruct (set_all_cons_inv _ _ _ _ _ Hs) as (a1 & Hset & Hrest & Hlt).
    destruct (set_spec a key v Hc Hwf Hlt) as (a1' & Hset' & Hwf1 & _).
    rewrite Hset in Hset'. simplify_eq. by eapply IH.
Qed.

(** After a list of calls a slot holds what the last call that reached
    it wrote: the calls count with their narrowed keys. *)
Lemma set_all_slot ops a a' k :
  0 < chunk_size ≤ SIZE_MAX → wf a → size_t_keys ops → 0 ≤ k →
  set_all ops a = Ok (tt, a') →
  slot a' k = written (narrow_ops ops) k (slot a k).
Proof.
  intros Hc. revert a. induction ops as [|[key v] ops IH]; intros a Hwf Hty Hk Hs.
  - cbv [set_all ret] in Hs. by simplify_eq.
  - apply Forall_cons_1 in Hty as [_ Hty].
    destruct (set_all_cons_inv _ _ _ _ _ Hs) as (a1 & Hset & Hrest & Hlt).
    destruct (set_spec a key v Hc Hwf Hlt) as (a1' & Hset' & Hwf1 & Hslot & _).
    rewrite Hset in Hset'. simplify_eq.
    rewrite (IH _ Hwf1 Hty Hk Hrest), (Hslot _ Hk). unfold written; simpl.
    do 2 case_decide; by simplify_eq.
Qed.


Lemma narrow_ops_keys ops k : k ∈ (narrow_ops ops).*1 → narrowed k = k.
Proof.
  unfold narrow_ops. rewrite <-list_fmap_compose.
  intros (op & -> & _)%list_elem_of_fmap. simpl. apply narrowed_idem.
Qed.


Lemma reachable_wf a : 0 < chunk_size ≤ SIZE_MAX → reachable a → wf a.
Proof. intros Hc (ops & Hty & Hs). eapply set_all_wf; eauto using ctor_wf. Qed.

Lemma written_not_in ops k d : k ∉ ops.*1 → written ops k d = d.
Proof.
  revert d. induction ops as [|[key v] ops IH]; intros d Hk; [done|].
  apply not_elem_of_cons in Hk as [Hne Hk]. unfold written; simpl.
  rewrite decide_False by done. by apply IH.
Qed.

Lemma slot_ctor k : slot ctor k = value_t_default.
Proof.
  unfold slot; simpl.
  destruct (replicate _ _ !! _) as [p|] eqn:Hp; [|done].
  apply lookup_replicate in Hp as [-> _]. done.
Qed.

(** No call reaches a slot whose number [narrowed] does not yield: in
    every state of the object such a slot holds the default value. *)
Lemma reachable_slot_image a k :
  0 < chunk_size ≤ SIZE_MAX → reachable a → 0 ≤ k → narrowed k ≠ k →
  slot a k = value_t_default.
Proof.
  intros Hc (ops & Hty & Hs) Hk Hne.
  rewrite (set_all_slot _ _ _ k Hc ctor_wf Hty Hk Hs), slot_ctor.
  apply written_not_in. intros Hin. by apply narrow_ops_keys in Hin.
Qed.

(** *** Allocation follows the contents *)

Lemma num_truthy_exists vs :
  num_truthy vs ≠ 0 → ∃ (i : nat) v, vs !! i = Some v ∧ to_bool v = true.
Proof.
  induction vs as [|x vs IH]; simpl; [done|]. intros Hnz.
  destruct (to_bool x) eqn:Ex.
  - by exists 0%nat, x.
  - destruct IH as (i & v & Hi & Hv); [lia|]. by exists (S i), v.
Qed.

Lemma slot_not_allocated a k :
  allocated a (k / chunk_size) = false → slot a k = value_t_default.
Proof.
  unfold allocated, slot.
  by destruct (chunks a !! Z.to_nat (k / chunk_size)) as [[ch|]|].
Qed.

Lemma allocated_iff a c :
  0 < chunk_size → wf a → 0 ≤ c →
  allocated a c = true ↔
  ∃ k, 0 ≤ k ∧ k / chunk_size = c ∧ to_bool (slot a k) = true.
Proof.
  intros Hc [_ Hch] Hc0. split.
  - unfold allocated. destruct (chunks a !! Z.to_nat c) as [[ch|]|] eqn:Hp; [|done..].
    intros _. destruct (Hch _ _ Hp) as (Hlen & Hcnt & Hnz).
    destruct (num_truthy_exists (values ch)) as (i & v & Hi & Hv); [congruence|].
    pose proof (lookup_lt_Some _ _ _ Hi) as Hlt. rewrite Hlen in Hlt.
    assert ((c * chunk_size + Z.of_nat i) / chunk_size = c) as Hq.
    { rewrite Z.add_comm, Z.div_add by lia. rewrite Z.div_small; lia. }
    assert ((c * chunk_size + Z.of_nat i) mod chunk_size = Z.of_nat i) as Hr.
    { rewrite Z.add_comm, Z.mod_add by lia. apply Z.mod_small. lia. }
    exists (c * chunk_size + Z.of_nat i). split; [lia|]. split; [done|].
    unfold slot. by rewrite Hq, Hp, Hr, Nat2Z.id, Hi.
  - intros (k & Hk & <- & Hv).
    destruct (allocated a (k / chunk_size)) eqn:Ha; [done|].
    rewrite (slot_not_allocated _ _ Ha), bool_default in Hv. done.
Qed.

(** *** What a list of calls writes *)






(** *** Filling one chunk and clearing it again

    The keys of [kvs] lie in the chunk [c], which is absent in [a0]; they
    are set to truthy values and then cleared in the order [cs]. *)
Section scenario.
Variables (a0 : array value_t) (c : Z) (kvs : list (Z * value_t)) (cs : list Z).
Hypothesis Hpar : params_ok.
Hypothesis Hreach : reachable a0.
Hypothesis Hfree : allocated a0 c = false.
Hypothesis Hne : kvs ≠ [].
Hypothesis Hnd : NoDup kvs.*1.
Hypothesis Hkvs :
  Forall (λ op, 0 ≤ op.1 < max_size ∧ op.1 ≤ INT_MAX ∧
                op.1 / chunk_size = c ∧ to_bool op.2 = true) kvs.
Hypothesis Hperm : cs ≡ₚ kvs.*1.














End scenario.


(** *** When [get] and [set] abort *)

Lemma chunk_for_key_Abort_iff key a :
  chunk_for_key key a = Abort ↔ num_chunks ≤ narrowed key / chunk_size.
Proof.
  unfold chunk_for_key, bind, rassert, ret.
  change (size_wrap (key_t key)) with (narrowed key).
  destruct (Z.ltb_spec (narrowed key / chunk_size) num_chunks); split; (done || lia).
Qed.

Lemma no_abort_load_chunk c : no_abort (load_chunk (value_t:=value_t) c).
Proof. unfold load_chunk. solve_no_abort. Qed.

Lemma no_abort_deref c : no_abort (deref (value_t:=value_t) c).
Proof. unfold deref. pose proof no_abort_load_chunk. solve_no_abort. Qed.

Lemma no_abort_update_chunk c (f : chunk_t value_t → chunk_t value_t) :
  no_abort (update_chunk c f).
Proof.
  unfold update_chunk, store_chunk. pose proof no_abort_deref.
  solve_no_abort.
Qed.

Lemma get_Abort_iff key a :
  get key a = Abort ↔ num_chunks ≤ narrowed key / chunk_size.
Proof.
  rewrite <-(chunk_for_key_Abort_iff key a). unfold get.
  apply bind_no_abort_iff. intros c.
  pose proof no_abort_load_chunk. solve_no_abort.
Qed.

Lemma set_Abort_iff key v a :
  set key v a = Abort ↔ num_chunks ≤ narrowed key / chunk_size.
Proof.
  rewrite <-(chunk_for_key_Abort_iff key a). unfold set.
  apply bind_no_abort_iff. intros c.
  pose proof no_abort_load_chunk. pose proof no_abort_deref.
  pose proof no_abort_update_chunk.
  unfold new_chunk_t, store_chunk, delete_chunk.
  solve_no_abort.
Qed.


(** *** The properties of the shrinking variant *)



(** C3: in every state reached by calls of [set], the [count] of each
    allocated chunk is the number of truthy slots of its [values], and
    no allocated chunk has [count == 0]; and a call of [set] that writes
    to the chunk leaves it in the table, with the new values and their
    count and without deleting anything, when a truthy slot remains, and
    deletes it and stores a null pointer in its table entry when none
    does. *)
Theorem count_invariant a (i : nat) ch :
  params_ok → reachable a → chunks a !! i = Some (Some ch) →
  count ch = num_truthy (values ch) ∧ count ch ≠ 0 ∧
  ∀ key v a',
    chunk_for_key key a = Ok (Z.of_nat i, a) → set key v a = Ok (tt, a') →
    let vs' := <[Z.to_nat (index_for_key key) := v]> (values ch) in
    if decide (num_truthy vs' = 0)
    then chunks a' !! i = Some None ∧ deletes a' = S (deletes a)
    else chunks a' !! i = Some (Some {| count := num_truthy vs'; values := vs' |}) ∧
         deletes a' = deletes a.
Proof.
  intros Hp Hr Hi. pose proof (params_ok_chunk_size Hp) as Hc.
  destruct (reachable_wf _ Hc Hr) as [Htbl Hch].
  destruct (Hch _ _ Hi) as (Hlen & Hcnt & Hnz).
  split; [done|]. split; [done|]. intros key v a' Hck Hset.
  apply chunk_for_key_inv in Hck as [[= Hq] Hlt].
  rewrite index_for_key_eq.
  assert (i = Z.to_nat (narrowed key / chunk_size)) as -> by lia.
  destruct (lookup_lt_is_Some_2 (values ch)
              (Z.to_nat (narrowed key mod chunk_size)))
    as [old Hold]; [rewrite Hlen; apply index_in_chunk; lia|].
  pose proof (set_write key v a (Some ch) old Hlt Hi
                (andb_false_r _) Hold) as Hw.
  rewrite Hset in Hw.
  pose proof (chunk_after_write_count (narrowed key mod chunk_size) v old ch
                Hc Hlen Hcnt Hold) as Hcnt'.
  change (default chunk_t_ctor (Some ch)) with ch in Hw. cbv zeta in Hw.
  set (ch' := chunk_after_write (narrowed key mod chunk_size) v old ch) in *.
  assert (values ch' = <[Z.to_nat (narrowed key mod chunk_size) := v]> (values ch))
    as Hvals by done.
  clearbody ch'. injection Hw as ->. cbv zeta. cbn [chunks deletes].
  rewrite list_lookup_insert_eq by (by eapply lookup_lt_Some).
  rewrite <-Hvals, <-Hcnt'.
  destruct (Z.eqb_spec (count ch') 0) as [Hz|Hz].
  - by rewrite decide_True.
  - rewrite decide_False by done. by destruct ch'.
Qed.




End facts.
End two_level_array_facts.

(** ** [two_level_nevershrink_array_t] *)

Module two_level_nevershrink_array_facts.
Import two_level_nevershrink_array_t.
Section facts.
Context {value_t : Type} {VT : ValueT value_t} {P : Params}.
Implicit Types (a : array value_t) (ch : chunk_t value_t)
  (v : value_t) (key c : Z) (r : slot_ref) (sts : list (stmt value_t)).

Lemma ns_chunk_for_key_Ok key a :
  narrowed key / chunk_size < num_chunks →
  chunk_for_key key a = Ok (narrowed key / chunk_size, a).
Proof.
  intros Hlt. unfold chunk_for_key, bind, rassert, ret.
  change (size_wrap (key_t key)) with (narrowed key).
  by rewrite (proj2 (Z.ltb_lt _ _) Hlt).
Qed.

Lemma ns_chunk_for_key_inv key a x a' :
  chunk_for_key key a = Ok (x, a') → x = narrowed key / chunk_size ∧ a' = a.
Proof.
  unfold chunk_for_key, bind, rassert, ret.
  change (size_wrap (key_t key)) with (narrowed key).
  destruct (_ <? _); by intros [= <- <-].
Qed.

Lemma ns_chunk_for_key_Abort_iff key a :
  chunk_for_key key a = Abort ↔ num_chunks ≤ narrowed key / chunk_size.
Proof.
  unfold chunk_for_key, bind, rassert, ret.
  change (size_wrap (key_t key)) with (narrowed key).
  destruct (Z.ltb_spec (narrowed key / chunk_size) num_chunks); split; (done || lia).
Qed.

Lemma ns_no_abort_load_chunk c : no_abort (load_chunk (value_t:=value_t) c).
Proof. unfold load_chunk. solve_no_abort. Qed.

Lemma subscript_Abort_iff key a :
  subscript key a = Abort ↔ num_chunks ≤ narrowed key / chunk_size.
Proof.
  rewrite <-(ns_chunk_for_key_Abort_iff key a). unfold subscript.
  apply bind_no_abort_iff. intros c.
  pose proof ns_no_abort_load_chunk. unfold new_chunk_t, store_chunk.
  solve_no_abort.
Qed.

Lemma ns_load_chunk_Ok a c p :
  chunks a !! Z.to_nat c = Some p → load_chunk c a = Ok (p, a).
Proof. intros Hp. unfold load_chunk, bind, gets. by apply array_at_Ok. Qed.

Lemma ns_load_chunk_inv a c p a' :
  load_chunk c a = Ok (p, a') → chunks a !! Z.to_nat c = Some p ∧ a' = a.
Proof.
  unfold load_chunk, bind, gets, array_at, ret, undefined.
  destruct (chunks a !! Z.to_nat c); by intros [= <- <-].
Qed.

Lemma ns_deref_Ok a c ch :
  chunks a !! Z.to_nat c = Some (Some ch) → deref c a = Ok (ch, a).
Proof.
  intros Hp. unfold deref. by rewrite (bind_Ok _ _ _ _ _ (ns_load_chunk_Ok _ _ _ Hp)).
Qed.

(** *** What [operator[]] and the accesses through a reference do *)

Lemma subscript_inv key a r a' :
  subscript key a = Ok (r, a') →
  r = {| ref_chunk := narrowed key / chunk_size; ref_index := narrowed key mod chunk_size |} ∧
  ((∃ ch, chunks a !! Z.to_nat (narrowed key / chunk_size) = Some (Some ch) ∧ a' = a) ∨
   (chunks a !! Z.to_nat (narrowed key / chunk_size) = Some None ∧
    a' = {| chunks := <[Z.to_nat (narrowed key / chunk_size) := Some chunk_t_ctor]> (chunks a);
            news := S (news a) |})).
Proof.
  unfold subscript. intros Hs.
  apply bind_Ok_inv in Hs as (c & a1 & [-> ->]%ns_chunk_for_key_inv & Hs).
  apply bind_Ok_inv in Hs as (p & a2 & [Hp ->]%ns_load_chunk_inv & Hs).
  destruct p as [ch|].
  - injection Hs as <- <-. split; [done|]. left. by exists ch.
  - injection Hs as <- <-. split; [done|]. by right.
Qed.

Lemma subscript_Ok key a :
  wf a → 0 ≤ narrowed key / chunk_size < num_chunks →
  ∃ a', subscript key a =
        Ok ({| ref_chunk := narrowed key / chunk_size; ref_index := narrowed key mod chunk_size |}, a').
Proof.
  intros [Hlen _] Hk.
  destruct (lookup_lt_is_Some_2 (chunks a) (Z.to_nat (narrowed key / chunk_size)))
    as [p Hp]; [rewrite Hlen; lia|].
  unfold subscript.
  rewrite (bind_Ok _ _ _ _ _ (ns_chunk_for_key_Ok _ _ (proj2 Hk))).
  rewrite (bind_Ok _ _ _ _ _ (ns_load_chunk_Ok _ _ _ Hp)).
  destruct p as [ch|]; eexists; reflexivity.
Qed.

Lemma store_ref_inv r v a a' :
  store_ref r v a = Ok (tt, a') →
  ∃ ch, chunks a !! Z.to_nat (ref_chunk r) = Some (Some ch) ∧
        (Z.to_nat (ref_index r) < length (values ch))%nat ∧
        a' = {| chunks := <[Z.to_nat (ref_chunk r) :=
                             Some {| values := <[Z.to_nat (ref_index r) := v]>
                                                 (values ch) |}]> (chunks a);
                news := news a |}.
Proof.
  unfold store_ref. intros Hs.
  apply bind_Ok_inv in Hs as (ch & a1 & Hd & Hs). unfold deref in Hd.
  apply bind_Ok_inv in Hd as (p & a2 & [Hp ->]%ns_load_chunk_inv & Hd).
  destruct p as [ch'|]; [|done]. injection Hd as -> ->.
  apply bind_Ok_inv in Hs as (old & a3 & Hold & Hs).
  unfold array_at in Hold.
  destruct (values ch !! Z.to_nat (ref_index r)) as [x|] eqn:Hx; [|done].
  injection Hold as -> ->. injection Hs as <-.
  exists ch. split; [done|]. split; [by eapply lookup_lt_Some|done].
Qed.

Lemma store_ref_Ok r v a ch :
  chunks a !! Z.to_nat (ref_chunk r) = Some (Some ch) →
  (Z.to_nat (ref_index r) < length (values ch))%nat →
  ∃ a', store_ref r v a = Ok (tt, a') ∧ load_ref r a' = Ok (v, a').
Proof.
  intros Hp Hlt. destruct (lookup_lt_is_Some_2 _ _ Hlt) as [old Hold].
  pose proof (lookup_lt_Some _ _ _ Hp) as Hc.
  eexists. split.
  - unfold store_ref. rewrite (bind_Ok _ _ _ _ _ (ns_deref_Ok _ _ _ Hp)).
    rewrite (bind_Ok _ _ _ _ _ (array_at_Ok _ _ _ _ Hold)). reflexivity.
  - unfold load_ref.
    erewrite bind_Ok; [|apply ns_deref_Ok; simpl; by apply list_lookup_insert_eq].
    apply array_at_Ok. simpl. by apply list_lookup_insert_eq.
Qed.

(** *** The invariant, and chunks that stay *)

Lemma ns_ctor_wf : wf (ctor : array value_t).
Proof.
  split; simpl.
  - by rewrite length_replicate.
  - intros i ch Hi. apply lookup_replicate in Hi as [? _]. done.
Qed.

Lemma wf_insert a (i : nat) ch n :
  wf a → length (values ch) = Z.to_nat chunk_size →
  wf {| chunks := <[i := Some ch]> (chunks a); news := n |}.
Proof.
  intros [Hlen Hch] Hl. split; simpl; [by rewrite length_insert|].
  intros j ch' Hj. destruct (decide (i = j)) as [->|Hne].
  - destruct (decide (j < length (chunks a))%nat).
    + rewrite list_lookup_insert_eq in Hj by done. by simplify_eq.
    + rewrite list_insert_ge in Hj by lia. by eapply Hch.
  - rewrite list_lookup_insert_ne in Hj by done. by eapply Hch.
Qed.

Lemma allocated_insert a (i : nat) ch n c :
  allocated a c = true →
  allocated {| chunks := <[i := Some ch]> (chunks a); news := n |} c = true.
Proof.
  unfold allocated; simpl. intros Ha.
  destruct (chunks a !! Z.to_nat c) as [[ch'|]|] eqn:Hp; [|done..].
  destruct (decide (i = Z.to_nat c)) as [->|Hne].
  - rewrite list_lookup_insert_eq; [done|]. by eapply lookup_lt_Some.
  - by rewrite list_lookup_insert_ne, Hp.
Qed.

Lemma subscript_wf key a r a' : wf a → subscript key a = Ok (r, a') → wf a'.
Proof.
  intros Hwf [_ [(ch & _ & ->)|[_ ->]]]%subscript_inv; [done|].
  apply wf_insert; [done|]. simpl. apply length_replicate.
Qed.

Lemma store_ref_wf r v a a' : wf a → store_ref r v a = Ok (tt, a') → wf a'.
Proof.
  intros Hwf (ch & Hp & _ & ->)%store_ref_inv.
  apply wf_insert; [done|]. simpl. rewrite length_insert.
  destruct Hwf as [_ Hch]. by eapply Hch.
Qed.

Lemma subscript_keeps key a r a' c :
  subscript key a = Ok (r, a') → allocated a c = true → allocated a' c = true.
Proof.
  intros [_ [(ch & _ & ->)|[_ ->]]]%subscript_inv Ha; [done|].
  by apply allocated_insert.
Qed.

Lemma store_ref_keeps r v a a' c :
  store_ref r v a = Ok (tt, a') → allocated a c = true → allocated a' c = true.
Proof. intros (ch & _ & _ & ->)%store_ref_inv Ha. by apply allocated_insert. Qed.

Lemma subscript_allocates key a r a' :
  subscript key a = Ok (r, a') → allocated a' (narrowed key / chunk_size) = true.
Proof.
  intros [_ [(ch & Hp & ->)|[Hp ->]]]%subscript_inv; unfold allocated; simpl.
  - by rewrite Hp.
  - rewrite list_lookup_insert_eq; [done|]. by eapply lookup_lt_Some.
Qed.

Lemma exec_inv (st : stmt value_t) a a' :
  exec st a = Ok (tt, a') →
  wf a → wf a' ∧ ∀ c, allocated a c = true → allocated a' c = true.
Proof.
  destruct st as [key|key v|r v]; simpl; intros Hs Hwf.
  - apply bind_Ok_inv in Hs as (r & a1 & Hsub & [= <-]).
    eauto using subscript_wf, subscript_keeps.
  - apply bind_Ok_inv in Hs as (r & a1 & Hsub & Hst).
    split; [by eauto using subscript_wf, store_ref_wf|].
    eauto using subscript_keeps, store_ref_keeps.
  - eauto using store_ref_wf, store_ref_keeps.
Qed.

Lemma exec_all_inv sts a a' :
  exec_all sts a = Ok (tt, a') →
  wf a → wf a' ∧ ∀ c, allocated a c = true → allocated a' c = true.
Proof.
  revert a. induction sts as [|st sts IH]; intros a Hs Hwf.
  - injection Hs as <-. done.
  - simpl in Hs. apply bind_Ok_inv in Hs as ([] & a1 & Hst & Hs).
    destruct (exec_inv _ _ _ Hst Hwf) as [Hwf1 Hk1].
    destruct (IH _ Hs Hwf1) as [Hwf' Hk']. auto.
Qed.

Lemma ns_reachable_wf a : reachable a → wf a.
Proof. intros [sts Hs]. by apply (exec_all_inv _ _ _ Hs ns_ctor_wf). Qed.

Lemma ns_num_chunks_eq : params_ok → num_chunks = max_size / chunk_size + 1.
Proof.
  intros (Hc & Hm & Hn). unfold num_chunks. apply size_wrap_small.
  split; [|done]. assert (0 ≤ max_size / chunk_size); [|lia].
  apply Z.div_pos; lia.
Qed.


(** *** The property of the never-shrink variant *)

End facts.
End two_level_nevershrink_array_facts.

(** ** Both variants *)

Section both.
Context {value_t : Type} {VT : ValueT value_t} {P : Params}.


(** C7, as the code has it: [num_chunks] is the integer quotient
    [max_size / chunk_size] plus one, in both classes; that is the
    ceiling of [max_size / chunk_size] exactly when [chunk_size] does not
    divide [max_size], and one more than the ceiling when it does. *)
Theorem num_chunks_quotient_plus_one :
  params_ok →
  two_level_array_t.num_chunks = max_size / chunk_size + 1 ∧
  two_level_nevershrink_array_t.num_chunks = max_size / chunk_size + 1 ∧
  (is_ceil_div max_size chunk_size two_level_array_t.num_chunks ↔
   max_size mod chunk_size ≠ 0) ∧
  (max_size mod chunk_size = 0 →
   is_ceil_div max_size chunk_size (two_level_array_t.num_chunks - 1)).
Proof.
  intros Hp. pose proof Hp as ((Hc & _) & _).
  rewrite (two_level_array_facts.num_chunks_eq Hp).
  rewrite (two_level_nevershrink_array_facts.ns_num_chunks_eq Hp).
  pose proof (Z.div_mod max_size chunk_size) as Hdm.
  pose proof (Z.mod_pos_bound max_size chunk_size Hc) as Hb.
  unfold is_ceil_div. repeat split; try nia.
Qed.
End both.

(** ** The properties on the concrete instance *)

Section examples.
Local Existing Instance ptr_value.
Local Existing Instance small_params.
Import two_level_array_t.

Ltac params := repeat split; by vm_compute.
Ltac reach ops :=
  exists ops; split; [repeat constructor; by vm_compute|reflexivity].

(** The example of the specification: [set(5, 1)] allocates chunk 1,
    [get(5) == 1] and [get(4) == 0]; [set(5, 0)] releases the chunk and
    [get(5) == 0]; [set(4, 0)] on the fresh object creates no chunk. *)
Example spec_scenario :
  set 5 1 ctor =
    Ok (tt, {| chunks := [None; Some {| count := 1; values := [0; 1; 0; 0] |};
                          None; None; None];
               news := 1; deletes := 0 |}) ∧
  (set 5 1;; get 5) ctor = (set 5 1;; ret 1) ctor ∧
  (set 5 1;; get 4) ctor = (set 5 1;; ret 0) ctor ∧
  (set 5 1;; set 5 0) ctor =
    Ok (tt, {| chunks := [None; None; None; None; None];
               news := 1; deletes := 1 |}) ∧
  (set 5 1;; set 5 0;; get 5) ctor = (set 5 1;; set 5 0;; ret 0) ctor ∧
  set 4 0 ctor = Ok (tt, ctor).
Proof. repeat split. Qed.



Lemma count_invariant_witness :
  2 = num_truthy [0; 1; 2; 0] ∧ 2 ≠ 0 ∧
  ∀ key v a',
    chunk_for_key key scenario_state = Ok (Z.of_nat 1, scenario_state) →
    set key v scenario_state = Ok (tt, a') →
    let vs' := <[Z.to_nat (index_for_key key) := v]> [0; 1; 2; 0] in
    if decide (num_truthy vs' = 0)
    then chunks a' !! 1%nat = Some None ∧
         deletes a' = S (deletes scenario_state)
    else chunks a' !! 1%nat
         = Some (Some {| count := num_truthy vs'; values := vs' |}) ∧
         deletes a' = deletes scenario_state.
Proof.
  refine (two_level_array_facts.count_invariant scenario_state 1
            {| count := 2; values := [0; 1; 2; 0] |} _ _ _);
    [params|reach [(5, 1); (6, 2)]|reflexivity].
Defined.








(** C7 as worded fails when [chunk_size] divides [max_size]: for
    [max_size = 16] and [chunk_size = 4] the code has [num_chunks = 5],
    and the ceiling of [16 / 4] is [4]. *)
Lemma num_chunks_not_ceiling :
  num_chunks = 5 ∧ is_ceil_div max_size chunk_size 4 ∧
  ¬ is_ceil_div max_size chunk_size num_chunks.
Proof.
  split; [reflexivity|]. split; [by vm_compute|].
  intros [Hlo _]. by vm_compute in Hlo.
Qed.

End examples.

(** ** Keys beyond the range of [key_t]

    With [max_size = 2^32] and [chunk_size = 2^30] the table has five
    entries and the key [2^31] is within capacity.  As a [key_t] it is
    [-2^31]; converted back to [size_t] for the division it is
    [2^64 - 2^31], whose chunk id [17179869182] the assertion rejects. *)

Section beyond_key_t.
Local Existing Instance ptr_value.
Local Existing Instance big_params.
Import two_level_array_t.


Example key_t_conversion :
  key_t (2 ^ 31) = - 2 ^ 31 ∧ narrowed (2 ^ 31) = 2 ^ 64 - 2 ^ 31 ∧
  narrowed (2 ^ 31) / chunk_size = 17179869182 ∧ num_chunks = 5 ∧
  key_t (2 ^ 32 + 5) = 5 ∧ narrowed INT_MAX = INT_MAX ∧
  narrowed (2 ^ 32 - 1) mod 7 = 1.
Proof. repeat split. Qed.






End beyond_key_t.

(** The header's own defaults, [max_size = INT_MAX] and
    [chunk_size = 1 << 16], where the quotient plus one is the ceiling. *)
Lemma num_chunks_quotient_plus_one_witness :
  @two_level_array_t.num_chunks default_params = INT_MAX / 65536 + 1 ∧
  @two_level_nevershrink_array_t.num_chunks default_params = INT_MAX / 65536 + 1 ∧
  (is_ceil_div INT_MAX 65536 (@two_level_array_t.num_chunks default_params) ↔
   INT_MAX mod 65536 ≠ 0) ∧
  (INT_MAX mod 65536 = 0 →
   is_ceil_div INT_MAX 65536 (@two_level_array_t.num_chunks default_params - 1)).
Proof.
  refine (@num_chunks_quotient_plus_one default_params _).
  repeat split; by vm_compute.
Defined.

(** * Further properties *)

(** ** Counted loops *)

Lemma for_upto_unfold {St} (body : Z → M St unit) (m : Z) (len : nat) :
  foldr (λ i rest, body i;; rest) (ret tt) (seqZ m (Z.of_nat (S len))) =
  (body m;; foldr (λ i rest, body i;; rest) (ret tt)
              (seqZ (Z.succ m) (Z.of_nat len))).
Proof.
  rewrite seqZ_cons by lia. simpl.
  by replace (Z.pred (Z.of_nat (S len))) with (Z.of_nat len) by lia.
Qed.

Lemma size_wrap_nonneg z : 0 ≤ size_wrap z.
Proof. unfold size_wrap, SIZE_WIDTH. apply Z.mod_pos_bound. lia. Qed.

(** ** [two_level_array_t], continued *)

Module two_level_array_more.
Import two_level_array_t two_level_array_facts.
Section facts.
Context {value_t : Type} {VT : ValueT value_t} {P : Params}.
Implicit Types (a b : array value_t) (ch : chunk_t value_t)
  (tbl : list (option (chunk_t value_t)))
  (vs : list value_t) (v : value_t) (key k : Z)
  (ops : list (Z * value_t)).

(** *** The constructor's loop *)

Lemma init_loop (len : nat) : ∀ m tbl n d,
  0 ≤ m → (Z.to_nat m + len ≤ length tbl)%nat →
  ∃ tbl',
    foldr (λ i rest, table_store i None;; rest) (ret tt)
      (seqZ m (Z.of_nat len)) {| chunks := tbl; news := n; deletes := d |}
    = Ok (tt, {| chunks := tbl'; news := n; deletes := d |}) ∧
    length tbl' = length tbl ∧
    ∀ j, tbl' !! j =
         if decide (Z.to_nat m ≤ j < Z.to_nat m + len)%nat then Some None
         else tbl !! j.
Proof.
  induction len as [|len IH]; intros m tbl n d Hm Hlen.
  - exists tbl. split; [done|]. split; [done|]. intros j.
    rewrite decide_False; [done|lia].
  - destruct (IH (Z.succ m) (<[Z.to_nat m := None]> tbl) n d) as (tbl' & Hrun & Hl & Hlook);
      [lia|rewrite length_insert; lia|].
    exists tbl'. split; [|split].
    + rewrite for_upto_unfold. erewrite bind_Ok; [exact Hrun|].
      unfold table_store; simpl. rewrite decide_True by lia. done.
    + by rewrite Hl, length_insert.
    + intros j. rewrite Hlook.
      destruct (decide (j = Z.to_nat m)) as [->|Hne].
      * rewrite decide_False by lia. rewrite decide_True by lia.
        apply list_lookup_insert_eq. lia.
      * rewrite list_lookup_insert_ne by done.
        destruct (decide (Z.to_nat m ≤ j < Z.to_nat m + S len)%nat).
        -- rewrite decide_True; [done|lia].
        -- rewrite decide_False; [done|lia].
Qed.

(** X1: whatever the freshly allocated table holds, the loop of the
    constructor leaves [num_chunks] null pointers: the object the
    constructor builds is [ctor]. *)
Theorem ctor_from_nulls_table tbl :
  length tbl = Z.to_nat num_chunks → ctor_from tbl = Ok (tt, ctor).
Proof.
  intros Hlen. unfold ctor_from, for_upto.
  pose proof (size_wrap_nonneg (max_size / chunk_size + 1)) as Hnn.
  fold num_chunks in Hnn.
  destruct (init_loop (Z.to_nat num_chunks) 0 tbl 0%nat 0%nat) as (tbl' & Hrun & Hl & Hlook);
    [done|simpl; lia|].
  rewrite Z2Nat.id in Hrun by done. rewrite Hrun. do 2 f_equal.
  unfold ctor. f_equal. apply list_eq. intros j. rewrite Hlook.
  destruct (decide (j < Z.to_nat num_chunks)%nat) as [Hj|Hj].
  - rewrite decide_True by (simpl; lia). symmetry. by apply lookup_replicate_2.
  - rewrite decide_False by (simpl; lia).
    rewrite (lookup_ge_None_2 tbl) by lia. symmetry.
    apply lookup_replicate_None. lia.
Qed.

(** *** Keys and slots *)

Lemma slot_key_div (c i : Z) :
  0 < chunk_size → 0 ≤ i < chunk_size →
  (c * chunk_size + i) / chunk_size = c ∧ (c * chunk_size + i) mod chunk_size = i.
Proof.
  intros Hc Hi. split.
  - rewrite Z.add_comm, Z.div_add by lia. rewrite Z.div_small; lia.
  - rewrite Z.add_comm, Z.mod_add by lia. by apply Z.mod_small.
Qed.

(** X2: keys and slots.  [chunk_for_key] and [index_for_key] split the
    key they receive, the narrowed key, into a chunk id and an index
    within the chunk, from which it can be put together again; a key up
    to [INT_MAX] is received as it is, so that two such keys with the
    same chunk id and index are equal, and every chunk id of the table
    with every index that make up a number up to [INT_MAX] come from
    that number as a key; and two keys [2^32] apart are one key to the
    helper functions. *)
Theorem key_slot_bijection :
  0 < chunk_size →
  (∀ key a, narrowed key / chunk_size < num_chunks →
     chunk_for_key key a = Ok (narrowed key / chunk_size, a) ∧
     0 ≤ index_for_key key < chunk_size ∧
     narrowed key = narrowed key / chunk_size * chunk_size + index_for_key key) ∧
  (∀ k k' a c, 0 ≤ k ≤ INT_MAX → 0 ≤ k' ≤ INT_MAX →
     chunk_for_key k a = Ok (c, a) → chunk_for_key k' a = Ok (c, a) →
     index_for_key k = index_for_key k' → k = k') ∧
  (∀ c i a, 0 ≤ c < num_chunks → 0 ≤ i < chunk_size →
     c * chunk_size + i ≤ INT_MAX →
     chunk_for_key (c * chunk_size + i) a = Ok (c, a) ∧
     index_for_key (c * chunk_size + i) = i) ∧
  (∀ key a, chunk_for_key (key + 2 ^ 32) a = chunk_for_key key a ∧
            index_for_key (key + 2 ^ 32) = index_for_key key).
Proof.
  intros Hc. split; [|split; [|split]].
  - intros key a Hlt. split; [by apply chunk_for_key_Ok|].
    rewrite index_for_key_eq.
    split; [by apply Z.mod_pos_bound|].
    rewrite Z.mul_comm. apply Z.div_mod. lia.
  - intros k k' a c Hk Hk' [[= Hq] _]%chunk_for_key_inv
      [[= Hq'] _]%chunk_for_key_inv Hr.
    rewrite !index_for_key_eq, !narrowed_small in * by done.
    apply key_split; [done|lia|lia| |]; congruence.
  - intros c i a Hci Hi Hsm. destruct (slot_key_div c i Hc Hi) as [Hq Hr].
    assert (0 ≤ c * chunk_size + i ≤ INT_MAX) as Hn by nia.
    rewrite index_for_key_eq, (narrowed_small _ Hn), Hr. split; [|done].
    rewrite <-Hq at 2. apply chunk_for_key_small; [done|]. rewrite Hq. lia.
  - intros key a. unfold chunk_for_key, index_for_key.
    change (size_wrap (key_t (key + 2 ^ 32))) with (narrowed (key + 2 ^ 32)).
    by rewrite narrowed_period.
Qed.

(** *** Memory safety *)

(** X3: in every state of the object and for every [size_t] key, [get]
    and [set] stay within the table and within the chunk: they return or
    stop in the assertion, and never index out of bounds. *)
Theorem get_set_memory_safe a key v :
  params_ok → reachable a → 0 ≤ key →
  get key a ≠ Undefined ∧ set key v a ≠ Undefined.
Proof.
  intros Hp Hr Hkey. pose proof (params_ok_chunk_size Hp) as Hc.
  pose proof (reachable_wf _ Hc Hr) as Hwf.
  destruct (Z.lt_ge_cases (narrowed key / chunk_size) num_chunks) as [Hlt|Hge].
  - split.
    + by rewrite (get_slot a key (proj1 Hc) Hwf Hlt).
    + destruct (set_spec a key v Hc Hwf Hlt) as (a' & -> & _). done.
  - split.
    + by rewrite (proj2 (get_Abort_iff key a) Hge).
    + by rewrite (proj2 (set_Abort_iff key v a) Hge).
Qed.

(** *** The container as a map *)

(** X4: after any calls of [set] on a fresh object, [get] returns for
    every key the assertion lets through the value of the last call
    whose key reached the helper functions as this one does, and the
    default value if there was none. *)
Theorem get_after_sets ops a k :
  params_ok → size_t_keys ops → set_all ops ctor = Ok (tt, a) →
  narrowed k / chunk_size < num_chunks →
  get k a = Ok (written (narrow_ops ops) (narrowed k) value_t_default, a).
Proof.
  intros Hp Hty Hs Hk. pose proof (params_ok_chunk_size Hp) as Hc.
  pose proof (set_all_wf _ _ _ Hc ctor_wf Hty Hs) as Hwf.
  rewrite (get_slot a k (proj1 Hc) Hwf Hk).
  rewrite (set_all_slot _ _ _ _ Hc ctor_wf Hty (proj1 (narrowed_range k)) Hs).
  by rewrite slot_ctor.
Qed.


(** X5: in every state of the object a chunk is allocated exactly when
    [get] returns a truthy value for some key that [chunk_for_key] maps
    to it. *)
Theorem allocated_iff_truthy_key a c :
  params_ok → reachable a → 0 ≤ c →
  allocated a c = true ↔
  ∃ k x, 0 ≤ k ∧ chunk_for_key k a = Ok (c, a) ∧
         get k a = Ok (x, a) ∧ to_bool x = true.
Proof.
  intros Hp Hr Hc0. pose proof (params_ok_chunk_size Hp) as Hc.
  pose proof (reachable_wf _ Hc Hr) as Hwf.
  split.
  - intros Ha.
    destruct (proj1 (allocated_iff a c (proj1 Hc) Hwf Hc0) Ha) as (k & Hk & Hkc & Hv).
    assert (narrowed k = k) as Hn.
    { destruct (decide (narrowed k = k)) as [|Hne]; [done|].
      by rewrite (reachable_slot_image a k Hc Hr Hk Hne), bool_default in Hv. }
    assert (narrowed k / chunk_size < num_chunks) as Hlt.
    { rewrite Hn, Hkc. unfold allocated in Ha.
      destruct (chunks a !! Z.to_nat c) as [p|] eqn:Hlook; [|done].
      apply lookup_lt_Some in Hlook. destruct Hwf as [Hlen _]. lia. }
    exists k, (slot a k). split; [done|]. split; [|split; [|done]].
    + pose proof (chunk_for_key_Ok k a Hlt) as Hck. by rewrite Hn, Hkc in Hck.
    + pose proof (get_slot a k (proj1 Hc) Hwf Hlt) as Hg. by rewrite Hn in Hg.
  - intros (k & x & Hk & [[= Hkc] Hlt]%chunk_for_key_inv & Hg & Hv).
    apply (allocated_iff a c (proj1 Hc) Hwf Hc0).
    exists (narrowed k). split; [apply narrowed_range|]. split; [done|].
    rewrite (get_slot a k (proj1 Hc) Hwf Hlt) in Hg. by simplify_eq.
Qed.

(** X6: in every state of the object the table has [num_chunks] entries,
    every chunk has [chunk_size] slots, and its [count] lies between 1
    and [chunk_size], so that [++count] and [--count] cannot wrap. *)
Theorem shape_invariant a (i : nat) ch :
  params_ok → reachable a → chunks a !! i = Some (Some ch) →
  length (chunks a) = Z.to_nat num_chunks ∧
  (i < Z.to_nat num_chunks)%nat ∧
  length (values ch) = Z.to_nat chunk_size ∧
  1 ≤ count ch ≤ chunk_size.
Proof.
  intros Hp Hr Hi. pose proof (params_ok_chunk_size Hp) as Hc.
  destruct (reachable_wf _ Hc Hr) as [Hlen Hch].
  destruct (Hch _ _ Hi) as (Hl & Hcnt & Hnz).
  pose proof (num_truthy_bounds (values ch)) as Hb.
  apply lookup_lt_Some in Hi. repeat split; [done|lia|done|lia|lia].
Qed.

(** X7: what one [set] costs.  A call the assertion lets through
    allocates at most one chunk and deletes at most one; it touches no
    table entry but that of the chunk [chunk_for_key] gives; with a
    truthy value it deletes nothing and leaves that chunk allocated; with
    the default value it allocates nothing. *)
Theorem set_allocation_economy a key v c :
  params_ok → reachable a → chunk_for_key key a = Ok (c, a) →
  ∃ a', set key v a = Ok (tt, a') ∧
    (news a ≤ news a' ≤ S (news a))%nat ∧
    (deletes a ≤ deletes a' ≤ S (deletes a))%nat ∧
    (∀ c' : nat, c' ≠ Z.to_nat c → chunks a' !! c' = chunks a !! c') ∧
    (to_bool v = true → deletes a' = deletes a ∧ allocated a' c = true) ∧
    (to_bool v = false → news a' = news a).
Proof.
  intros Hp Hr [[= ->] Hlt]%chunk_for_key_inv.
  pose proof (params_ok_chunk_size Hp) as Hc.
  pose proof (reachable_wf _ Hc Hr) as Hwf.
  pose proof (proj1 (narrowed_range key)) as Hkey.
  destruct (set_spec a key v Hc Hwf Hlt)
    as (a' & Hset & Hwf' & Hslot & Hother & Hn & Hd).
  exists a'. split; [done|].
  assert (to_bool v = true → allocated a' (narrowed key / chunk_size) = true)
    as Hlive.
  { intros Hv. apply (allocated_iff a' _ (proj1 Hc) Hwf'); [apply Z.div_pos; lia|].
    exists (narrowed key). split; [done|]. split; [done|].
    by rewrite (Hslot _ Hkey), decide_True. }
  assert (to_bool v = false → allocated a (narrowed key / chunk_size) = false →
          allocated a' (narrowed key / chunk_size) = false) as Hdead.
  { intros Hv Ha.
    destruct (allocated a' (narrowed key / chunk_size)) eqn:Ha'; [|done].
    apply (allocated_iff a' _ (proj1 Hc) Hwf') in Ha' as (k' & Hk' & Hkc & Hv');
      [|apply Z.div_pos; lia].
    rewrite (Hslot k' Hk') in Hv'. case_decide; [congruence|].
    rewrite slot_not_allocated, bool_default in Hv'; [done|by rewrite Hkc]. }
  destruct (allocated a (narrowed key / chunk_size)) eqn:Ha,
    (allocated a' (narrowed key / chunk_size)) eqn:Ha'; simpl in Hn, Hd;
    repeat split; try lia; try done.
  all: try intros Hv.
  all: try match goal with
           | Hv : to_bool _ = true |- _ => specialize (Hlive Hv)
           | Hv : to_bool _ = false |- _ => specialize (Hdead Hv eq_refl)
           end.
  all: first [done|lia].
Qed.

(** *** The table is determined by the contents *)

Lemma slot_at a (i j : nat) ch x :
  0 < chunk_size → length (values ch) = Z.to_nat chunk_size →
  chunks a !! i = Some (Some ch) → values ch !! j = Some x →
  slot a (Z.of_nat i * chunk_size + Z.of_nat j) = x ∧
  (Z.of_nat i * chunk_size + Z.of_nat j) / chunk_size = Z.of_nat i.
Proof.
  intros Hc Hlen Hi Hj. pose proof (lookup_lt_Some _ _ _ Hj) as Hlt.
  destruct (slot_key_div (Z.of_nat i) (Z.of_nat j) Hc) as [Hq Hr]; [lia|].
  split; [|done]. unfold slot. by rewrite Hq, Hr, !Nat2Z.id, Hi, Hj.
Qed.

Lemma chunk_t_eq ch ch' :
  count ch = count ch' → values ch = values ch' → ch = ch'.
Proof. destruct ch, ch'; simpl. by intros -> ->. Qed.

Lemma wf_entry_eq a b (i : nat) p q :
  0 < chunk_size → wf a → wf b →
  (∀ k, 0 ≤ k → k / chunk_size = Z.of_nat i → slot a k = slot b k) →
  chunks a !! i = Some p → chunks b !! i = Some q → p = q.
Proof.
  intros Hc [_ Hcha] [_ Hchb] Hslots Hp Hq.
  assert (∀ a' b' ch, (∀ i ch, chunks a' !! i = Some (Some ch) → chunk_ok ch) →
            (∀ k, 0 ≤ k → k / chunk_size = Z.of_nat i → slot a' k = slot b' k) →
            chunks a' !! i = Some (Some ch) → chunks b' !! i = Some None → False)
    as Hnot.
  { intros a' b' ch Hch' Hs Hl Hn. destruct (Hch' _ _ Hl) as (Hlen & Hcnt & Hnz).
    destruct (num_truthy_exists (values ch)) as (j & x & Hj & Hx); [congruence|].
    destruct (slot_at a' i j ch x Hc Hlen Hl Hj) as [Hsl Hq'].
    rewrite Hs in Hsl by (done || lia).
    unfold slot in Hsl. rewrite Hq', Nat2Z.id, Hn in Hsl.
    rewrite <-Hsl, bool_default in Hx. done. }
  destruct p as [ch|], q as [ch'|]; [|exfalso|exfalso|done].
  - destruct (Hcha _ _ Hp) as (Hlen & Hcnt & _).
    destruct (Hchb _ _ Hq) as (Hlen' & Hcnt' & _).
    assert (values ch = values ch') as Hvals.
    { apply list_eq. intros j.
      destruct (values ch !! j) as [x|] eqn:Hx.
      - destruct (lookup_lt_is_Some_2 (values ch') j) as [y Hy].
        { apply lookup_lt_Some in Hx. lia. }
        destruct (slot_at a i j ch x Hc Hlen Hp Hx) as [Hsa Hqa].
        destruct (slot_at b i j ch' y Hc Hlen' Hq Hy) as [Hsb _].
        rewrite Hslots in Hsa by (done || lia). congruence.
      - symmetry. apply lookup_ge_None. apply lookup_ge_None in Hx. lia. }
    f_equal. apply chunk_t_eq; [|done]. by rewrite Hcnt, Hcnt', Hvals.
  - by eapply (Hnot a b).
  - eapply (Hnot b a); [done| |done..]. intros k Hk Hkc. symmetry. by apply Hslots.
Qed.

Lemma wf_canonical a b :
  0 < chunk_size → wf a → wf b →
  (∀ k, accepted k → slot a k = slot b k) → chunks a = chunks b.
Proof.
  intros Hc Hwfa Hwfb Hslots. apply list_eq. intros i.
  destruct (decide (i < Z.to_nat num_chunks)%nat) as [Hi|Hi].
  - destruct (lookup_lt_is_Some_2 (chunks a) i) as [p Hp];
      [destruct Hwfa as [-> _]; lia|].
    destruct (lookup_lt_is_Some_2 (chunks b) i) as [q Hq];
      [destruct Hwfb as [-> _]; lia|].
    rewrite Hp, Hq. f_equal.
    apply (wf_entry_eq a b i p q Hc Hwfa Hwfb); [|done..].
    intros k Hk Hkc. apply Hslots. split; [done|]. lia.
  - rewrite !lookup_ge_None_2; [done|..].
    + destruct Hwfb as [-> _]. lia.
    + destruct Hwfa as [-> _]. lia.
Qed.



(** X8: two states of the object in which [get] returns the same value
    for every accepted key have the same table, chunk for chunk and
    [count] for [count]: how the contents came about leaves no trace. *)
Theorem same_contents_same_table a b :
  params_ok → reachable a → reachable b →
  (∀ k x, accepted k → get k a = Ok (x, a) → get k b = Ok (x, b)) →
  chunks a = chunks b.
Proof.
  intros Hp Hra Hrb Hget. pose proof (params_ok_chunk_size Hp) as Hc.
  pose proof (reachable_wf _ Hc Hra) as Hwfa.
  pose proof (reachable_wf _ Hc Hrb) as Hwfb.
  apply (wf_canonical a b (proj1 Hc) Hwfa Hwfb). intros k [Hk Hlt].
  destruct (decide (narrowed k = k)) as [Hn|Hn].
  - (* a slot that keys reach: one of them is below [2^32] and accepted *)
    destruct (narrowed_low k) as (k0 & Hk0 & Hn0 & Hle).
    rewrite Hn in Hn0, Hle.
    assert (accepted k0) as Hacc.
    { split; [lia|]. eapply Z.le_lt_trans; [|exact Hlt].
      apply Z.div_le_mono; lia. }
    assert (narrowed k0 / chunk_size < num_chunks) as Hlt0 by by rewrite Hn0.
    pose proof (get_slot a k0 (proj1 Hc) Hwfa Hlt0) as Hga.
    pose proof (get_slot b k0 (proj1 Hc) Hwfb Hlt0) as Hgb.
    rewrite Hn0 in Hga, Hgb. specialize (Hget k0 (slot a k) Hacc Hga).
    rewrite Hgb in Hget. by simplify_eq.
  - (* a slot no key reaches holds the default value in both *)
    by rewrite !reachable_slot_image.
Qed.


(** X10: calls of [set] for two keys that reach the helper functions
    as different keys commute as far as the table goes: either order
    returns, and the two tables are equal. *)
Theorem set_commute a k1 v1 k2 v2 c1 c2 :
  params_ok → reachable a →
  chunk_for_key k1 a = Ok (c1, a) → chunk_for_key k2 a = Ok (c2, a) →
  narrowed k1 ≠ narrowed k2 →
  ∃ a12 a21,
    (set k1 v1;; set k2 v2) a = Ok (tt, a12) ∧
    (set k2 v2;; set k1 v1) a = Ok (tt, a21) ∧
    chunks a12 = chunks a21.
Proof.
  intros Hp Hr [_ Hk1]%chunk_for_key_inv [_ Hk2]%chunk_for_key_inv Hne.
  pose proof (params_ok_chunk_size Hp) as Hc.
  pose proof (reachable_wf _ Hc Hr) as Hwf.
  destruct (set_spec a k1 v1 Hc Hwf Hk1) as (a1 & Hs1 & Hwf1 & Hsl1 & _).
  destruct (set_spec a1 k2 v2 Hc Hwf1 Hk2) as (a12 & Hs12 & Hwf12 & Hsl12 & _).
  destruct (set_spec a k2 v2 Hc Hwf Hk2) as (a2 & Hs2 & Hwf2 & Hsl2 & _).
  destruct (set_spec a2 k1 v1 Hc Hwf2 Hk1) as (a21 & Hs21 & Hwf21 & Hsl21 & _).
  exists a12, a21. split; [by rewrite (bind_Ok _ _ _ _ _ Hs1)|].
  split; [by rewrite (bind_Ok _ _ _ _ _ Hs2)|].
  apply (wf_canonical a12 a21 (proj1 Hc) Hwf12 Hwf21). intros k [Hk0 _].
  rewrite (Hsl12 k Hk0), (Hsl1 k Hk0), (Hsl21 k Hk0), (Hsl2 k Hk0).
  repeat case_decide; congruence.
Qed.

(** X11: a second [set] for the same key overrides the first: the table
    after [set(k, v1); set(k, v2)] is the table after [set(k, v2)]. *)
Theorem set_overwrite a k v1 v2 c :
  params_ok → reachable a → chunk_for_key k a = Ok (c, a) →
  ∃ a12 a2,
    (set k v1;; set k v2) a = Ok (tt, a12) ∧ set k v2 a = Ok (tt, a2) ∧
    chunks a12 = chunks a2.
Proof.
  intros Hp Hr [_ Hk]%chunk_for_key_inv.
  pose proof (params_ok_chunk_size Hp) as Hc.
  pose proof (reachable_wf _ Hc Hr) as Hwf.
  destruct (set_spec a k v1 Hc Hwf Hk) as (a1 & Hs1 & Hwf1 & Hsl1 & _).
  destruct (set_spec a1 k v2 Hc Hwf1 Hk) as (a12 & Hs12 & Hwf12 & Hsl12 & _).
  destruct (set_spec a k v2 Hc Hwf Hk) as (a2 & Hs2 & Hwf2 & Hsl2 & _).
  exists a12, a2. split; [by rewrite (bind_Ok _ _ _ _ _ Hs1)|]. split; [done|].
  apply (wf_canonical a12 a2 (proj1 Hc) Hwf12 Hwf2). intros k' [Hk0 _].
  rewrite (Hsl12 k' Hk0), (Hsl1 k' Hk0), (Hsl2 k' Hk0).
  repeat case_decide; congruence.
Qed.

(** *** Allocations and releases balance *)

Lemma num_live_replicate (n : nat) :
  num_live (replicate n (None : option (chunk_t value_t))) = 0%nat.
Proof. induction n as [|n IH]; [done|]. simpl. by rewrite IH. Qed.

Lemma num_live_insert tbl (i : nat) p q :
  tbl !! i = Some p →
  (num_live (<[i:=q]> tbl) + (if is_null p then 0 else 1) =
   num_live tbl + (if is_null q then 0 else 1))%nat.
Proof.
  revert i. induction tbl as [|x tbl IH]; intros [|i] Hi; simplify_eq/=.
  - lia.
  - specialize (IH _ Hi). lia.
Qed.

Lemma table_update_eq tbl tbl' (c : nat) q :
  length tbl' = length tbl → (∀ j, j ≠ c → tbl' !! j = tbl !! j) →
  tbl' !! c = Some q → tbl' = <[c:=q]> tbl.
Proof.
  intros Hlen Hother Hc. apply list_eq. intros j.
  destruct (decide (j = c)) as [->|Hne].
  - rewrite list_lookup_insert_eq; [done|].
    apply lookup_lt_Some in Hc. lia.
  - rewrite list_lookup_insert_ne by done. by apply Hother.
Qed.

Lemma set_balanced a key v a' :
  0 < chunk_size ≤ SIZE_MAX → wf a →
  set key v a = Ok (tt, a') → balanced a → balanced a'.
Proof.
  intros Hc Hwf Hset Hbal. pose proof (set_Ok_in_range _ _ _ _ Hset) as Hlt.
  destruct (set_spec a key v Hc Hwf Hlt)
    as (a1 & Hset1 & Hwf1 & _ & Hother & Hn & Hd).
  rewrite Hset in Hset1. simplify_eq.
  pose proof (narrowed_div_nonneg key chunk_size (proj1 Hc)) as Hq.
  destruct (wf_lookup _ _ Hwf (conj Hq Hlt)) as [p Hp].
  destruct (wf_lookup _ _ Hwf1 (conj Hq Hlt)) as [q Hq1].
  assert (chunks a1 = <[Z.to_nat (narrowed key / chunk_size) := q]> (chunks a)) as Heq.
  { apply table_update_eq; [|done..]. destruct Hwf as [-> _], Hwf1 as [-> _]. done. }
  pose proof (num_live_insert _ _ _ q Hp) as Hlive. rewrite <-Heq in Hlive.
  unfold balanced in *. unfold allocated in Hn, Hd. rewrite Hp, Hq1 in Hn, Hd.
  destruct p, q; simpl in *; lia.
Qed.

Lemma set_all_balanced ops a a' :
  0 < chunk_size ≤ SIZE_MAX → wf a → size_t_keys ops →
  set_all ops a = Ok (tt, a') → balanced a → balanced a'.
Proof.
  intros Hc. revert a. induction ops as [|[key v] ops IH]; intros a Hwf Hty Hs Hbal.
  - cbv [set_all ret] in Hs. by simplify_eq.
  - apply Forall_cons_1 in Hty as [_ Hty].
    destruct (set_all_cons_inv _ _ _ _ _ Hs) as (a1 & Hset & Hrest & Hlt).
    destruct (set_spec a key v Hc Hwf Hlt) as (a1' & Hset' & Hwf1 & _).
    rewrite Hset in Hset'. simplify_eq.
    eapply IH; eauto using set_balanced.
Qed.

Lemma reachable_balanced a :
  0 < chunk_size ≤ SIZE_MAX → reachable a → balanced a.
Proof.
  intros Hc (ops & Hty & Hs).
  eapply (set_all_balanced ops ctor a); eauto using ctor_wf.
  unfold balanced; simpl. by rewrite num_live_replicate.
Qed.

(** X12: in every state of the object the chunks allocated so far are
    the chunks deleted so far plus the chunks the table holds: no chunk
    is lost and none is deleted twice. *)
Theorem news_deletes_balance a :
  params_ok → reachable a →
  news a = (deletes a + num_live (chunks a))%nat.
Proof. intros Hp Hr. by apply reachable_balanced; [apply params_ok_chunk_size|]. Qed.

(** *** The destructor *)

Lemma delete_loop (len : nat) : ∀ m a,
  0 ≤ m → (Z.to_nat m + len ≤ length (chunks a))%nat →
  foldr (λ i rest, (let* p := load_chunk i in delete_ptr p);; rest) (ret tt)
    (seqZ m (Z.of_nat len)) a
  = Ok (tt, {| chunks := chunks a; news := news a;
               deletes := deletes a +
                          num_live (take len (drop (Z.to_nat m) (chunks a))) |}).
Proof.
  induction len as [|len IH]; intros m a Hm Hlen.
  - simpl. unfold ret. destruct a; simpl. do 3 f_equal. lia.
  - destruct (lookup_lt_is_Some_2 (chunks a) (Z.to_nat m)) as [p Hp]; [lia|].
    rewrite for_upto_unfold.
    set (a1 := {| chunks := chunks a; news := news a;
                  deletes := if is_null p then deletes a else S (deletes a) |}).
    assert ((let* p := load_chunk m in delete_ptr p) a = Ok (tt, a1)) as Hbody.
    { rewrite (bind_Ok _ _ _ _ _ (load_chunk_Ok _ _ _ Hp)).
      unfold delete_ptr, a1. destruct p; simpl; [done|]. by destruct a. }
    rewrite (bind_Ok _ _ _ _ _ Hbody).
    rewrite (IH (Z.succ m) a1) by (simpl; lia). simpl.
    replace (Z.to_nat (Z.succ m)) with (S (Z.to_nat m)) by lia.
    rewrite (drop_S _ _ _ Hp). simpl. do 3 f_equal. destruct (is_null p); lia.
Qed.

(** X13: the destructor deletes every chunk the table still holds, once:
    when it is done, every chunk that was ever allocated has been
    deleted, and exactly once. *)
Theorem dtor_frees_all a :
  params_ok → reachable a →
  ∃ a', dtor a = Ok (tt, a') ∧ news a' = news a ∧ deletes a' = news a ∧
        chunks a' = [].
Proof.
  intros Hp Hr. pose proof (params_ok_chunk_size Hp) as Hc.
  destruct (reachable_wf _ Hc Hr) as [Hlen _].
  pose proof (reachable_balanced a Hc Hr) as Hbal.
  pose proof (size_wrap_nonneg (max_size / chunk_size + 1)) as Hnn.
  fold num_chunks in Hnn.
  eexists. split.
  - unfold dtor, for_upto. rewrite <-(Z2Nat.id num_chunks) at 1 by done.
    rewrite (bind_Ok _ _ _ _ _
               (delete_loop (Z.to_nat num_chunks) 0 a (Z.le_refl 0)
                  ltac:(rewrite Hlen; simpl; lia))).
    reflexivity.
  - simpl. rewrite take_ge by (rewrite <-Hlen; done). by rewrite Hbal.
Qed.

Lemma get_chunks_only a b k x :
  chunks a = chunks b → get k a = Ok (x, a) → get k b = Ok (x, b).
Proof.
  intros Heq.
  unfold get, chunk_for_key, load_chunk, bind, rassert, ret, gets, array_at,
    undefined.
  cbv beta. destruct (_ <? _); [|done]. rewrite Heq.
  destruct (chunks b !! _) as [[ch|]|]; simpl;
    [destruct (values ch !! _)|..]; unfold ret; intros; by simplify_eq.
Qed.
End facts.
End two_level_array_more.

(** ** [two_level_nevershrink_array_t], continued *)

Module two_level_nevershrink_array_more.
Import two_level_nevershrink_array_t two_level_nevershrink_array_facts.
Section facts.
Context {value_t : Type} {VT : ValueT value_t} {P : Params}.
Implicit Types (a b : array value_t) (ch : chunk_t value_t)
  (tbl : list (option (chunk_t value_t)))
  (v : value_t) (key k c : Z) (r : slot_ref) (sts : list (stmt value_t)).

(** *** The constructor's loop *)

Lemma ns_init_loop (len : nat) : ∀ m tbl n,
  0 ≤ m → (Z.to_nat m + len ≤ length tbl)%nat →
  ∃ tbl',
    foldr (λ i rest, table_store i None;; rest) (ret tt)
      (seqZ m (Z.of_nat len)) {| chunks := tbl; news := n |}
    = Ok (tt, {| chunks := tbl'; news := n |}) ∧
    length tbl' = length tbl ∧
    ∀ j, tbl' !! j =
         if decide (Z.to_nat m ≤ j < Z.to_nat m + len)%nat then Some None
         else tbl !! j.
Proof.
  induction len as [|len IH]; intros m tbl n Hm Hlen.
  - exists tbl. split; [done|]. split; [done|]. intros j.
    rewrite decide_False; [done|lia].
  - destruct (IH (Z.succ m) (<[Z.to_nat m := None]> tbl) n) as (tbl' & Hrun & Hl & Hlook);
      [lia|rewrite length_insert; lia|].
    exists tbl'. split; [|split].
    + rewrite for_upto_unfold. erewrite bind_Ok; [exact Hrun|].
      unfold table_store; simpl. rewrite decide_True by lia. done.
    + by rewrite Hl, length_insert.
    + intros j. rewrite Hlook.
      destruct (decide (j = Z.to_nat m)) as [->|Hne].
      * rewrite decide_False by lia. rewrite decide_True by lia.
        apply list_lookup_insert_eq. lia.
      * rewrite list_lookup_insert_ne by done.
        destruct (decide (Z.to_nat m ≤ j < Z.to_nat m + S len)%nat).
        -- rewrite decide_True; [done|lia].
        -- rewrite decide_False; [done|lia].
Qed.

(** X14: the constructor of the never-shrink variant, too, leaves
    [num_chunks] null pointers whatever the fresh table holds. *)
Theorem ns_ctor_from_nulls_table tbl :
  length tbl = Z.to_nat num_chunks → ctor_from tbl = Ok (tt, ctor).
Proof.
  intros Hlen. unfold ctor_from, for_upto.
  pose proof (size_wrap_nonneg (max_size / chunk_size + 1)) as Hnn.
  fold num_chunks in Hnn.
  destruct (ns_init_loop (Z.to_nat num_chunks) 0 tbl 0%nat) as (tbl' & Hrun & Hl & Hlook);
    [done|simpl; lia|].
  rewrite Z2Nat.id in Hrun by done. rewrite Hrun. do 2 f_equal.
  unfold ctor. f_equal. apply list_eq. intros j. rewrite Hlook.
  destruct (decide (j < Z.to_nat num_chunks)%nat) as [Hj|Hj].
  - rewrite decide_True by (simpl; lia). symmetry. by apply lookup_replicate_2.
  - rewrite decide_False by (simpl; lia).
    rewrite (lookup_ge_None_2 tbl) by lia. symmetry.
    apply lookup_replicate_None. lia.
Qed.

(** *** Contents *)

Lemma ns_default_lookup_replicate (n i : nat) :
  default value_t_default (replicate n value_t_default !! i) = value_t_default.
Proof.
  destruct (replicate n value_t_default !! i) as [x|] eqn:Hx; [|done].
  by apply lookup_replicate in Hx as [-> _].
Qed.

Lemma ns_subscript_slot key a r a' k :
  subscript key a = Ok (r, a') → slot a' k = slot a k.
Proof.
  intros [_ [(ch & _ & ->)|[Hnone ->]]]%subscript_inv; [done|].
  unfold slot; simpl.
  destruct (decide (Z.to_nat (narrowed key / chunk_size) = Z.to_nat (k / chunk_size)))
    as [Heq|Hne].
  - rewrite <-Heq, Hnone, list_lookup_insert_eq by (by eapply lookup_lt_Some).
    simpl. apply ns_default_lookup_replicate.
  - by rewrite list_lookup_insert_ne.
Qed.

Lemma ns_store_ref_slot r v a a' k :
  0 < chunk_size → 0 ≤ ref_chunk r → 0 ≤ ref_index r → 0 ≤ k →
  store_ref r v a = Ok (tt, a') →
  slot a' k =
  if decide (ref_chunk r = k / chunk_size ∧ ref_index r = k mod chunk_size)
  then v else slot a k.
Proof.
  intros Hc Hrc Hri Hk (ch & Hp & Hlt & ->)%store_ref_inv.
  pose proof (Z.div_pos k chunk_size Hk Hc) as Hq.
  pose proof (Z.mod_pos_bound k chunk_size Hc) as Hr.
  unfold slot; simpl.
  destruct (decide (ref_chunk r = k / chunk_size)) as [Hcq|Hcq].
  - rewrite <-Hcq, Hp, list_lookup_insert_eq by (by eapply lookup_lt_Some). simpl.
    destruct (decide (ref_index r = k mod chunk_size)) as [Hii|Hii].
    + rewrite decide_True by done. rewrite <-Hii.
      by rewrite list_lookup_insert_eq.
    + rewrite decide_False by tauto.
      rewrite list_lookup_insert_ne; [done|lia].
  - rewrite decide_False by tauto.
    rewrite list_lookup_insert_ne; [done|lia].
Qed.

Lemma ns_same_slot_same_key key k :
  0 < chunk_size →
  key / chunk_size = k / chunk_size ∧ key mod chunk_size = k mod chunk_size ↔
  key = k.
Proof.
  intros Hc. split; [|by intros ->]. intros [Hq Hr].
  rewrite (Z.div_mod key chunk_size), (Z.div_mod k chunk_size) by lia.
  by rewrite Hq, Hr.
Qed.

Lemma ns_exec_slot (st : stmt value_t) a a' k :
  0 < chunk_size → stmt_ok st → 0 ≤ k → exec st a = Ok (tt, a') →
  slot a' k = default (slot a k) (assigned st k).
Proof.
  intros Hc Hok Hk Hs. destruct st as [key|key v|r v]; simpl in *.
  - apply bind_Ok_inv in Hs as (r & a1 & Hsub & [= <-]).
    by eapply ns_subscript_slot.
  - apply bind_Ok_inv in Hs as (r & a1 & Hsub & Hst).
    pose proof (ns_subscript_slot _ _ _ _ k Hsub) as Hsl.
    apply subscript_inv in Hsub as [-> _].
    pose proof (narrowed_div_nonneg key chunk_size Hc) as Hq.
    assert (0 ≤ narrowed key mod chunk_size) as Hr by (by apply Z.mod_pos_bound).
    rewrite (ns_store_ref_slot (ref_of_key key) v a1 a' k Hc Hq Hr Hk Hst).
    simpl. rewrite Hsl.
    destruct (decide (narrowed key = k)) as [<-|Hne].
    + by rewrite decide_True.
    + rewrite decide_False; [done|]. by rewrite ns_same_slot_same_key.
  - destruct Hok as [Hrc [Hri _]].
    rewrite (ns_store_ref_slot r v a a' k Hc Hrc Hri Hk Hs).
    by case_decide.
Qed.

Lemma ns_exec_all_slot sts a a' k :
  0 < chunk_size → Forall stmt_ok sts → 0 ≤ k →
  exec_all sts a = Ok (tt, a') → slot a' k = written sts k (slot a k).
Proof.
  intros Hc. revert a. induction sts as [|st sts IH]; intros a Hok Hk Hs.
  - injection Hs as <-. done.
  - apply Forall_cons_1 in Hok as [Hst Hok]. simpl in Hs.
    apply bind_Ok_inv in Hs as ([] & a1 & Hex & Hs).
    rewrite (IH _ Hok Hk Hs), (ns_exec_slot _ _ _ k Hc Hst Hk Hex). done.
Qed.

Lemma ns_slot_ctor k : slot (ctor : array value_t) k = value_t_default.
Proof.
  unfold slot; simpl.
  destruct (replicate _ _ !! _) as [p|] eqn:Hp; [|done].
  by apply lookup_replicate in Hp as [-> _].
Qed.

Lemma ns_load_ref_slot a k :
  0 < chunk_size → wf a → 0 ≤ k → allocated a (k / chunk_size) = true →
  load_ref (ref_of_slot k) a = Ok (slot a k, a).
Proof.
  intros Hc [_ Hch] Hk Ha. unfold allocated in Ha. unfold load_ref, slot; simpl.
  destruct (chunks a !! Z.to_nat (k / chunk_size)) as [[ch|]|] eqn:Hp; [|done..].
  rewrite (bind_Ok _ _ _ _ _ (ns_deref_Ok _ _ _ Hp)).
  destruct (lookup_lt_is_Some_2 (values ch) (Z.to_nat (k mod chunk_size))) as [x Hx].
  { rewrite (Hch _ _ Hp). pose proof (Z.mod_pos_bound k chunk_size Hc). lia. }
  rewrite Hx. by apply array_at_Ok.
Qed.

Lemma ns_subscript_total a key :
  wf a → 0 < chunk_size → narrowed key / chunk_size < num_chunks →
  ∃ a', subscript key a = Ok (ref_of_key key, a') ∧ wf a' ∧
        allocated a' (narrowed key / chunk_size) = true ∧
        ∀ k, slot a' k = slot a k.
Proof.
  intros Hwf Hc Hk.
  destruct (subscript_Ok key a Hwf (conj (narrowed_div_nonneg key _ Hc) Hk))
    as [a' Hs].
  exists a'. split; [done|]. split; [by eapply subscript_wf|].
  split; [by eapply subscript_allocates|].
  intros k. by eapply ns_subscript_slot.
Qed.

Lemma ns_store_ref_total a k v :
  0 < chunk_size → wf a → 0 ≤ k → allocated a (k / chunk_size) = true →
  ∃ a', store_ref (ref_of_slot k) v a = Ok (tt, a').
Proof.
  intros Hc [_ Hch] Hk Ha. unfold allocated in Ha.
  destruct (chunks a !! Z.to_nat (k / chunk_size)) as [[ch|]|] eqn:Hp; [|done..].
  destruct (store_ref_Ok (ref_of_slot k) v a ch Hp) as (a' & Hst & _); [|by eauto].
  simpl. rewrite (Hch _ _ Hp). pose proof (Z.mod_pos_bound k chunk_size Hc). lia.
Qed.

Lemma ns_params_ok_chunk_size : params_ok → 0 < chunk_size.
Proof. by intros ((? & _) & _). Qed.

(** *** Memory safety *)

(** X15: in every state of the object and for every [size_t] key,
    [container[key]], a read of it and an assignment to it stay within
    the table and the chunk: they return or stop in the assertion. *)
Theorem ns_access_memory_safe a key v :
  params_ok → reachable a → 0 ≤ key →
  subscript key a ≠ Undefined ∧ read key a ≠ Undefined ∧
  exec (Assign key v) a ≠ Undefined.
Proof.
  intros Hp Hr Hkey. pose proof (ns_params_ok_chunk_size Hp) as Hc.
  pose proof (ns_reachable_wf _ Hr) as Hwf.
  pose proof (proj1 (narrowed_range key)) as Hn.
  destruct (Z.lt_ge_cases (narrowed key / chunk_size) num_chunks) as [Hlt|Hge].
  - destruct (ns_subscript_total a key Hwf Hc Hlt)
      as (a' & Hs & Hwf' & Ha' & _).
    split; [by rewrite Hs|]. split.
    + unfold read. rewrite (bind_Ok _ _ _ _ _ Hs). unfold ref_of_key.
      by rewrite (ns_load_ref_slot a' (narrowed key) Hc Hwf' Hn Ha').
    + simpl. rewrite (bind_Ok _ _ _ _ _ Hs). unfold ref_of_key.
      by destruct (ns_store_ref_total a' (narrowed key) v Hc Hwf' Hn Ha')
        as [a'' ->].
  - apply (subscript_Abort_iff key a) in Hge.
    split; [by rewrite Hge|]. unfold read; simpl. unfold bind. by rewrite Hge.
Qed.

(** *** The container as a map *)

(** X16: after any statements of a client on a fresh object, reading
    [container[k]] yields, for every key the assertion lets through, the
    value last assigned to the slot the key is taken to, by key or
    through a reference, and the default value if there was no
    assignment. *)
Theorem ns_read_after_program sts a k c :
  params_ok → Forall stmt_ok sts → exec_all sts ctor = Ok (tt, a) →
  chunk_for_key k a = Ok (c, a) →
  ∃ a', read k a = Ok (written sts (narrowed k) value_t_default, a').
Proof.
  intros Hp Hok Hs Hck. pose proof (ns_params_ok_chunk_size Hp) as Hc.
  assert (narrowed k / chunk_size < num_chunks) as Hk.
  { destruct (Z.lt_ge_cases (narrowed k / chunk_size) num_chunks) as [|Hge]; [done|].
    by rewrite (proj2 (ns_chunk_for_key_Abort_iff k a) Hge) in Hck. }
  pose proof (proj1 (narrowed_range k)) as Hn.
  pose proof (proj1 (exec_all_inv _ _ _ Hs ns_ctor_wf)) as Hwf.
  destruct (ns_subscript_total a k Hwf Hc Hk) as (a' & Hsub & Hwf' & Ha' & Hsl).
  exists a'. unfold read. rewrite (bind_Ok _ _ _ _ _ Hsub). unfold ref_of_key.
  rewrite (ns_load_ref_slot a' (narrowed k) Hc Hwf' Hn Ha'), Hsl.
  by rewrite (ns_exec_all_slot sts ctor a _ Hc Hok Hn Hs), ns_slot_ctor.
Qed.

(** *** References *)

(** X17: a reference obtained from [container[key]] never dangles and
    never goes stale.  After any later statements, reading through it
    returns the value last assigned to the slot since, by key or through
    any reference to it, or else the value it had; and [container[key]]
    is still that same reference. *)
Theorem ns_reference_stays_valid a key r a1 sts a2 :
  params_ok → reachable a →
  subscript key a = Ok (r, a1) →
  Forall stmt_ok sts → exec_all sts a1 = Ok (tt, a2) →
  ∃ x, load_ref r a1 = Ok (x, a1) ∧
       load_ref r a2 = Ok (written sts (narrowed key) x, a2) ∧
       subscript key a2 = Ok (r, a2).
Proof.
  intros Hp Hr Hsub Hok Hs. pose proof (ns_params_ok_chunk_size Hp) as Hc.
  assert (narrowed key / chunk_size < num_chunks) as Hk.
  { destruct (Z.lt_ge_cases (narrowed key / chunk_size) num_chunks) as [|Hge];
      [done|].
    by rewrite (proj2 (subscript_Abort_iff key a) Hge) in Hsub. }
  pose proof (proj1 (narrowed_range key)) as Hn.
  pose proof (ns_reachable_wf _ Hr) as Hwf.
  pose proof (subscript_wf _ _ _ _ Hwf Hsub) as Hwf1.
  pose proof (subscript_allocates _ _ _ _ Hsub) as Ha1.
  destruct (exec_all_inv _ _ _ Hs Hwf1) as [Hwf2 Hkeep].
  pose proof (Hkeep _ Ha1) as Ha2.
  pose proof (proj1 (subscript_inv _ _ _ _ Hsub)) as Hr'.
  fold (ref_of_slot (narrowed key)) in Hr'. subst r.
  exists (slot a1 (narrowed key)).
  split; [exact (ns_load_ref_slot a1 _ Hc Hwf1 Hn Ha1)|]. split.
  - rewrite (ns_load_ref_slot a2 _ Hc Hwf2 Hn Ha2).
    by rewrite (ns_exec_all_slot sts a1 a2 _ Hc Hok Hn Hs).
  - destruct (ns_subscript_total a2 key Hwf2 Hc Hk) as (a3 & Hs3 & _).
    destruct (subscript_inv _ _ _ _ Hs3) as [_ [(ch & _ & ->)|[Hnone _]]]; [done|].
    unfold allocated in Ha2. by rewrite Hnone in Ha2.
Qed.

(** X18: what [operator[]] does to the object, for a key the assertion
    lets through.  The reference it returns is to the slot
    [index_for_key] of the chunk [chunk_for_key] gives.  When that chunk
    is allocated nothing changes.  When it is absent that one chunk is
    allocated, every slot of which reads as the default value; the other
    table entries are untouched. *)
Theorem ns_subscript_effect a key c :
  params_ok → reachable a → chunk_for_key key a = Ok (c, a) →
  ∃ a', subscript key a
        = Ok ({| ref_chunk := c; ref_index := index_for_key key |}, a') ∧
    (allocated a c = true → a' = a) ∧
    (allocated a c = false →
       news a' = S (news a) ∧
       ∀ i, 0 ≤ i < chunk_size →
            load_ref {| ref_chunk := c; ref_index := i |} a'
            = Ok (value_t_default, a')) ∧
    (∀ c' : nat, c' ≠ Z.to_nat c → chunks a' !! c' = chunks a !! c').
Proof.
  intros Hp Hr Hck. pose proof (ns_params_ok_chunk_size Hp) as Hc.
  assert (narrowed key / chunk_size < num_chunks) as Hk.
  { destruct (Z.lt_ge_cases (narrowed key / chunk_size) num_chunks) as [|Hge];
      [done|].
    by rewrite (proj2 (ns_chunk_for_key_Abort_iff key a) Hge) in Hck. }
  apply ns_chunk_for_key_inv in Hck as [-> _].
  pose proof (ns_reachable_wf _ Hr) as Hwf.
  destruct (ns_subscript_total a key Hwf Hc Hk) as (a' & Hsub & Hwf' & Ha' & Hsl).
  exists a'. split; [done|].
  destruct (subscript_inv _ _ _ _ Hsub) as [_ [(ch & Hp' & ->)|[Hnone ->]]].
  - assert (allocated a (narrowed key / chunk_size) = true) as Ha
      by (unfold allocated; by rewrite Hp').
    split; [done|]. split; [by rewrite Ha|done].
  - split; [|split].
    + unfold allocated. by rewrite Hnone.
    + intros _. split; [done|]. intros i Hi. unfold load_ref.
      erewrite bind_Ok;
        [|apply ns_deref_Ok; simpl; apply list_lookup_insert_eq;
          by eapply lookup_lt_Some].
      apply array_at_Ok. simpl. apply lookup_replicate_2. lia.
    + intros c' Hc'. simpl. by rewrite list_lookup_insert_ne.
Qed.

(** *** Chunks are never lost *)

Lemma ns_num_live_replicate (n : nat) :
  num_live (replicate n (None : option (chunk_t value_t))) = 0%nat.
Proof. induction n as [|n IH]; [done|]. simpl. by rewrite IH. Qed.

Lemma ns_num_live_insert tbl (i : nat) p q :
  tbl !! i = Some p →
  (num_live (<[i:=q]> tbl) + (if is_null p then 0 else 1) =
   num_live tbl + (if is_null q then 0 else 1))%nat.
Proof.
  revert i. induction tbl as [|x tbl IH]; intros [|i] Hi; simplify_eq/=.
  - lia.
  - specialize (IH _ Hi). lia.
Qed.

Lemma ns_exec_counts (st : stmt value_t) a a' :
  exec st a = Ok (tt, a') →
  news a = num_live (chunks a) → news a' = num_live (chunks a').
Proof.
  assert (∀ key r b b', subscript key b = Ok (r, b') →
            news b = num_live (chunks b) → news b' = num_live (chunks b')) as Hsub.
  { intros key r b b' [_ [(ch & _ & ->)|[Hnone ->]]]%subscript_inv Hb; [done|].
    simpl. pose proof (ns_num_live_insert _ _ _ (Some chunk_t_ctor) Hnone).
    simpl in *. lia. }
  assert (∀ r v b b', store_ref r v b = Ok (tt, b') →
            news b = num_live (chunks b) → news b' = num_live (chunks b')) as Hst.
  { intros r v b b' (ch & Hp & _ & ->)%store_ref_inv Hb. simpl.
    pose proof (ns_num_live_insert _ _ _
      (Some {| values := <[Z.to_nat (ref_index r):=v]> (values ch) |}) Hp).
    simpl in *. lia. }
  destruct st as [key|key v|r v]; simpl; intros Hs Hb.
  - apply bind_Ok_inv in Hs as (r & a1 & Hs1 & [= <-]). eauto.
  - apply bind_Ok_inv in Hs as (r & a1 & Hs1 & Hs2). eauto.
  - eauto.
Qed.

Lemma ns_reachable_live a : reachable a → news a = num_live (chunks a).
Proof.
  intros [sts Hs].
  assert (∀ b, exec_all sts b = Ok (tt, a) →
               news b = num_live (chunks b) → news a = num_live (chunks a)) as Hall.
  { clear Hs. induction sts as [|st sts IH]; intros b Hs Hb.
    - injection Hs as <-. done.
    - simpl in Hs. apply bind_Ok_inv in Hs as ([] & b1 & Hst & Hs).
      eauto using ns_exec_counts. }
  apply (Hall ctor Hs). simpl. by rewrite ns_num_live_replicate.
Qed.

(** X19: in every state of the never-shrink object the number of chunks
    allocated so far is the number of chunks the table holds: no member
    function gives a chunk up. *)
Theorem ns_news_are_live a :
  reachable a → news a = num_live (chunks a).
Proof. apply ns_reachable_live. Qed.

(** *** The destructor *)

Lemma ns_delete_loop (len : nat) : ∀ m a (n : nat),
  0 ≤ m → (Z.to_nat m + len ≤ length (chunks a))%nat →
  foldr (λ i rest,
           (let* p := (λ s : array value_t * nat, array_at (chunks s.1) i s)
            in delete_ptr p);; rest) (ret tt)
    (seqZ m (Z.of_nat len)) (a, n)
  = Ok (tt, (a, (n + num_live (take len (drop (Z.to_nat m) (chunks a))))%nat)).
Proof.
  induction len as [|len IH]; intros m a n Hm Hlen.
  - simpl. unfold ret. do 3 f_equal. lia.
  - destruct (lookup_lt_is_Some_2 (chunks a) (Z.to_nat m)) as [p Hp]; [lia|].
    rewrite for_upto_unfold.
    assert ((let* p := (λ s : array value_t * nat, array_at (chunks s.1) m s)
             in delete_ptr p) (a, n)
            = Ok (tt, (a, if is_null p then n else S n))) as Hbody.
    { unfold bind; simpl. rewrite (array_at_Ok _ _ _ _ Hp).
      unfold delete_ptr. by destruct p. }
    rewrite (bind_Ok _ _ _ _ _ Hbody).
    rewrite (IH (Z.succ m) a) by lia.
    replace (Z.to_nat (Z.succ m)) with (S (Z.to_nat m)) by lia.
    rewrite (drop_S _ _ _ Hp). simpl. do 3 f_equal. destruct (is_null p); lia.
Qed.

(** X20: the destructor of the never-shrink variant deletes every chunk
    the table holds, once, and these are all the chunks that were ever
    allocated. *)
Theorem ns_dtor_frees_all a :
  reachable a →
  ∃ a', dtor (a, 0%nat) = Ok (tt, (a', news a)) ∧ chunks a' = [].
Proof.
  intros Hr. destruct (ns_reachable_wf _ Hr) as [Hlen _].
  pose proof (ns_reachable_live a Hr) as Hbal.
  pose proof (size_wrap_nonneg (max_size / chunk_size + 1)) as Hnn.
  fold num_chunks in Hnn.
  eexists. split.
  - unfold dtor, for_upto. rewrite <-(Z2Nat.id num_chunks) at 1 by done.
    rewrite (bind_Ok _ _ _ _ _
               (ns_delete_loop (Z.to_nat num_chunks) 0 a 0%nat (Z.le_refl 0)
                  ltac:(rewrite Hlen; simpl; lia))).
    unfold modify; simpl. rewrite take_ge by (rewrite <-Hlen; done).
    by rewrite Hbal.
  - done.
Qed.
End facts.
End two_level_nevershrink_array_more.

(** ** The further properties on the concrete instance *)

Section more_examples.
Local Existing Instance ptr_value.
Local Existing Instance small_params.

Ltac ok_params := repeat split; by vm_compute.
Ltac reached ops :=
  exists ops; split; [repeat constructor; by vm_compute|reflexivity].

Lemma ctor_from_nulls_table_witness :
  two_level_array_t.ctor_from
    [Some {| two_level_array_t.count := 3; two_level_array_t.values := [7] |};
     None; None; Some two_level_array_t.chunk_t_ctor; None]
  = Ok (tt, two_level_array_t.ctor).
Proof.
  refine (two_level_array_more.ctor_from_nulls_table _ _). reflexivity.
Defined.

Lemma key_slot_bijection_witness :
  (∀ key (a : two_level_array_t.array Z),
     narrowed key / chunk_size < two_level_array_t.num_chunks →
     two_level_array_t.chunk_for_key key a = Ok (narrowed key / chunk_size, a) ∧
     0 ≤ two_level_array_t.index_for_key key < chunk_size ∧
     narrowed key
     = narrowed key / chunk_size * chunk_size + two_level_array_t.index_for_key key) ∧
  (∀ k k' (a : two_level_array_t.array Z) c,
     0 ≤ k ≤ INT_MAX → 0 ≤ k' ≤ INT_MAX →
     two_level_array_t.chunk_for_key k a = Ok (c, a) →
     two_level_array_t.chunk_for_key k' a = Ok (c, a) →
     two_level_array_t.index_for_key k = two_level_array_t.index_for_key k' →
     k = k') ∧
  (∀ c i (a : two_level_array_t.array Z),
     0 ≤ c < two_level_array_t.num_chunks → 0 ≤ i < chunk_size →
     c * chunk_size + i ≤ INT_MAX →
     two_level_array_t.chunk_for_key (c * chunk_size + i) a = Ok (c, a) ∧
     two_level_array_t.index_for_key (c * chunk_size + i) = i) ∧
  (∀ key (a : two_level_array_t.array Z),
     two_level_array_t.chunk_for_key (key + 2 ^ 32) a
     = two_level_array_t.chunk_for_key key a ∧
     two_level_array_t.index_for_key (key + 2 ^ 32)
     = two_level_array_t.index_for_key key).
Proof.
  refine (two_level_array_more.key_slot_bijection (value_t:=Z) _). by vm_compute.
Defined.

Lemma get_set_memory_safe_witness :
  two_level_array_t.get 19 scenario_state ≠ Undefined ∧
  two_level_array_t.set 19 3 scenario_state ≠ Undefined.
Proof.
  refine (two_level_array_more.get_set_memory_safe scenario_state 19 3 _ _ _);
    [ok_params|reached [(5, 1); (6, 2)]|by vm_compute].
Defined.

(** After [set(5, 1); set(6, 2); set(2^32 + 5, 3)] the key [5] reads as
    [3]: the third call was taken for a call with the key [5]. *)
Lemma get_after_sets_witness :
  two_level_array_t.get 5
    {| two_level_array_t.chunks :=
         [None;
          Some {| two_level_array_t.count := 2;
                  two_level_array_t.values := [0; 3; 2; 0] |};
          None; None; None];
       two_level_array_t.news := 1;
       two_level_array_t.deletes := 0 |}
  = Ok (two_level_array_t.written
          (two_level_array_t.narrow_ops [(5, 1); (6, 2); (2 ^ 32 + 5, 3)])
          (narrowed 5) 0,
        {| two_level_array_t.chunks :=
             [None;
              Some {| two_level_array_t.count := 2;
                      two_level_array_t.values := [0; 3; 2; 0] |};
              None; None; None];
           two_level_array_t.news := 1;
           two_level_array_t.deletes := 0 |}).
Proof.
  refine (two_level_array_more.get_after_sets
            [(5, 1); (6, 2); (2 ^ 32 + 5, 3)] _ 5 _ _ _ _);
    [ok_params|repeat constructor; by vm_compute|by vm_compute|by vm_compute].
Defined.

Lemma allocated_iff_truthy_key_witness :
  two_level_array_t.allocated scenario_state 1 = true ↔
  ∃ k x, 0 ≤ k ∧
         two_level_array_t.chunk_for_key k scenario_state
         = Ok (1, scenario_state) ∧
         two_level_array_t.get k scenario_state = Ok (x, scenario_state) ∧
         to_bool x = true.
Proof.
  refine (two_level_array_more.allocated_iff_truthy_key scenario_state 1 _ _ _);
    [ok_params|reached [(5, 1); (6, 2)]|by vm_compute].
Defined.

Lemma shape_invariant_witness :
  length (two_level_array_t.chunks scenario_state)
  = Z.to_nat two_level_array_t.num_chunks ∧
  (1 < Z.to_nat two_level_array_t.num_chunks)%nat ∧
  length [0; 1; 2; 0] = Z.to_nat chunk_size ∧
  1 ≤ 2 ≤ chunk_size.
Proof.
  refine (two_level_array_more.shape_invariant scenario_state 1
            {| two_level_array_t.count := 2;
               two_level_array_t.values := [0; 1; 2; 0] |} _ _ _);
    [ok_params|reached [(5, 1); (6, 2)]|reflexivity].
Defined.

Lemma set_allocation_economy_witness :
  ∃ a', two_level_array_t.set 9 4 scenario_state = Ok (tt, a') ∧
    (two_level_array_t.news scenario_state ≤ two_level_array_t.news a'
     ≤ S (two_level_array_t.news scenario_state))%nat ∧
    (two_level_array_t.deletes scenario_state ≤ two_level_array_t.deletes a'
     ≤ S (two_level_array_t.deletes scenario_state))%nat ∧
    (∀ c : nat, c ≠ Z.to_nat 2 →
       two_level_array_t.chunks a' !! c
       = two_level_array_t.chunks scenario_state !! c) ∧
    (to_bool 4 = true →
       two_level_array_t.deletes a' = two_level_array_t.deletes scenario_state ∧
       two_level_array_t.allocated a' 2 = true) ∧
    (to_bool 4 = false →
       two_level_array_t.news a' = two_level_array_t.news scenario_state).
Proof.
  refine (two_level_array_more.set_allocation_economy scenario_state 9 4 2 _ _ _);
    [ok_params|reached [(5, 1); (6, 2)]|reflexivity].
Defined.

Lemma same_contents_same_table_witness :
  two_level_array_t.chunks scenario_state
  = two_level_array_t.chunks
      {| two_level_array_t.chunks := two_level_array_t.chunks scenario_state;
         two_level_array_t.news := 2; two_level_array_t.deletes := 1 |}.
Proof.
  refine (two_level_array_more.same_contents_same_table scenario_state
            {| two_level_array_t.chunks := two_level_array_t.chunks scenario_state;
               two_level_array_t.news := 2; two_level_array_t.deletes := 1 |}
            _ _ _ _).
  - ok_params.
  - reached [(5, 1); (6, 2)].
  - reached [(6, 2); (6, 0); (5, 1); (6, 2)].
  - intros k x _. by apply two_level_array_more.get_chunks_only.
Defined.


Lemma set_commute_witness :
  ∃ a12 a21,
    (two_level_array_t.set 5 0;; two_level_array_t.set 9 4) scenario_state
    = Ok (tt, a12) ∧
    (two_level_array_t.set 9 4;; two_level_array_t.set 5 0) scenario_state
    = Ok (tt, a21) ∧
    two_level_array_t.chunks a12 = two_level_array_t.chunks a21.
Proof.
  refine (two_level_array_more.set_commute scenario_state 5 0 9 4 1 2 _ _ _ _ _);
    [ok_params|reached [(5, 1); (6, 2)]|reflexivity|reflexivity|by vm_compute].
Defined.

Lemma set_overwrite_witness :
  ∃ a12 a2,
    (two_level_array_t.set 9 4;; two_level_array_t.set 9 0) scenario_state
    = Ok (tt, a12) ∧
    two_level_array_t.set 9 0 scenario_state = Ok (tt, a2) ∧
    two_level_array_t.chunks a12 = two_level_array_t.chunks a2.
Proof.
  refine (two_level_array_more.set_overwrite scenario_state 9 4 0 2 _ _ _);
    [ok_params|reached [(5, 1); (6, 2)]|reflexivity].
Defined.

Lemma news_deletes_balance_witness :
  two_level_array_t.news scenario_state
  = (two_level_array_t.deletes scenario_state
     + two_level_array_t.num_live (two_level_array_t.chunks scenario_state))%nat.
Proof.
  refine (two_level_array_more.news_deletes_balance scenario_state _ _);
    [ok_params|reached [(5, 1); (6, 2)]].
Defined.

Lemma dtor_frees_all_witness :
  ∃ a', two_level_array_t.dtor scenario_state = Ok (tt, a') ∧
        two_level_array_t.news a' = two_level_array_t.news scenario_state ∧
        two_level_array_t.deletes a' = two_level_array_t.news scenario_state ∧
        two_level_array_t.chunks a' = [].
Proof.
  refine (two_level_array_more.dtor_frees_all scenario_state _ _);
    [ok_params|reached [(5, 1); (6, 2)]].
Defined.

Lemma ns_ctor_from_nulls_table_witness :
  two_level_nevershrink_array_t.ctor_from
    [Some {| two_level_nevershrink_array_t.values := [7] |};
     None; None; Some two_level_nevershrink_array_t.chunk_t_ctor; None]
  = Ok (tt, two_level_nevershrink_array_t.ctor).
Proof.
  refine (two_level_nevershrink_array_more.ns_ctor_from_nulls_table _ _).
  reflexivity.
Defined.

Lemma ns_access_memory_safe_witness :
  two_level_nevershrink_array_t.subscript 19 nevershrink_state ≠ Undefined ∧
  two_level_nevershrink_array_t.read 19 nevershrink_state ≠ Undefined ∧
  two_level_nevershrink_array_t.exec
    (two_level_nevershrink_array_t.Assign 19 3) nevershrink_state ≠ Undefined.
Proof.
  refine (two_level_nevershrink_array_more.ns_access_memory_safe
            nevershrink_state 19 3 _ _ _);
    [ok_params|by exists [two_level_nevershrink_array_t.Assign 5 7]|by vm_compute].
Defined.

(** After [container[5] = 7; container[2^32 + 5] = 8;] the key [5]
    reads as [8]. *)
Lemma ns_read_after_program_witness :
  ∃ a', two_level_nevershrink_array_t.read 5
          {| two_level_nevershrink_array_t.chunks :=
               [None;
                Some {| two_level_nevershrink_array_t.values := [0; 8; 0; 0] |};
                None; None; None];
             two_level_nevershrink_array_t.news := 1 |}
        = Ok (two_level_nevershrink_array_t.written
                [two_level_nevershrink_array_t.Assign 5 7;
                 two_level_nevershrink_array_t.Assign (2 ^ 32 + 5) 8]
                (narrowed 5) 0, a').
Proof.
  refine (two_level_nevershrink_array_more.ns_read_after_program
            [two_level_nevershrink_array_t.Assign 5 7;
             two_level_nevershrink_array_t.Assign (2 ^ 32 + 5) 8] _ 5 1 _ _ _ _);
    [ok_params|repeat constructor; by vm_compute|by vm_compute|by vm_compute].
Defined.

Lemma ns_reference_stays_valid_witness :
  ∃ x,
    two_level_nevershrink_array_t.load_ref
      {| two_level_nevershrink_array_t.ref_chunk := 1;
         two_level_nevershrink_array_t.ref_index := 1 |} nevershrink_state
    = Ok (x, nevershrink_state) ∧
    two_level_nevershrink_array_t.load_ref
      {| two_level_nevershrink_array_t.ref_chunk := 1;
         two_level_nevershrink_array_t.ref_index := 1 |}
      {| two_level_nevershrink_array_t.chunks :=
           [None;
            Some {| two_level_nevershrink_array_t.values := [0; 9; 3; 0] |};
            None; None; None];
         two_level_nevershrink_array_t.news := 1 |}
    = Ok (two_level_nevershrink_array_t.written
            [two_level_nevershrink_array_t.AssignRef
               {| two_level_nevershrink_array_t.ref_chunk := 1;
                  two_level_nevershrink_array_t.ref_index := 1 |} 9;
             two_level_nevershrink_array_t.Assign 6 3] (narrowed 5) x,
          {| two_level_nevershrink_array_t.chunks :=
               [None;
                Some {| two_level_nevershrink_array_t.values := [0; 9; 3; 0] |};
                None; None; None];
             two_level_nevershrink_array_t.news := 1 |}) ∧
    two_level_nevershrink_array_t.subscript 5
      {| two_level_nevershrink_array_t.chunks :=
           [None;
            Some {| two_level_nevershrink_array_t.values := [0; 9; 3; 0] |};
            None; None; None];
         two_level_nevershrink_array_t.news := 1 |}
    = Ok ({| two_level_nevershrink_array_t.ref_chunk := 1;
             two_level_nevershrink_array_t.ref_index := 1 |},
          {| two_level_nevershrink_array_t.chunks :=
               [None;
                Some {| two_level_nevershrink_array_t.values := [0; 9; 3; 0] |};
                None; None; None];
             two_level_nevershrink_array_t.news := 1 |}).
Proof.
  refine (two_level_nevershrink_array_more.ns_reference_stays_valid
            nevershrink_state 5 _ nevershrink_state _ _ _ _ _ _ _).
  - ok_params.
  - by exists [two_level_nevershrink_array_t.Assign 5 7].
  - by vm_compute.
  - repeat constructor; by vm_compute.
  - by vm_compute.
Defined.

Lemma ns_subscript_effect_witness :
  ∃ a', two_level_nevershrink_array_t.subscript 9 nevershrink_state
        = Ok ({| two_level_nevershrink_array_t.ref_chunk := 2;
                 two_level_nevershrink_array_t.ref_index :=
                   two_level_nevershrink_array_t.index_for_key 9 |}, a') ∧
    (two_level_nevershrink_array_t.allocated nevershrink_state 2 = true →
     a' = nevershrink_state) ∧
    (two_level_nevershrink_array_t.allocated nevershrink_state 2 = false →
       two_level_nevershrink_array_t.news a'
       = S (two_level_nevershrink_array_t.news nevershrink_state) ∧
       ∀ i, 0 ≤ i < chunk_size →
            two_level_nevershrink_array_t.load_ref
              {| two_level_nevershrink_array_t.ref_chunk := 2;
                 two_level_nevershrink_array_t.ref_index := i |} a'
            = Ok (0, a')) ∧
    (∀ c' : nat, c' ≠ Z.to_nat 2 →
       two_level_nevershrink_array_t.chunks a' !! c'
       = two_level_nevershrink_array_t.chunks nevershrink_state !! c').
Proof.
  refine (two_level_nevershrink_array_more.ns_subscript_effect
            nevershrink_state 9 2 _ _ _);
    [ok_params|by exists [two_level_nevershrink_array_t.Assign 5 7]|reflexivity].
Defined.

Lemma ns_news_are_live_witness :
  two_level_nevershrink_array_t.news nevershrink_state
  = two_level_nevershrink_array_t.num_live
      (two_level_nevershrink_array_t.chunks nevershrink_state).
Proof.
  refine (two_level_nevershrink_array_more.ns_news_are_live nevershrink_state _).
  by exists [two_level_nevershrink_array_t.Assign 5 7].
Defined.

Lemma ns_dtor_frees_all_witness :
  ∃ a', two_level_nevershrink_array_t.dtor (nevershrink_state, 0%nat)
        = Ok (tt, (a', two_level_nevershrink_array_t.news nevershrink_state)) ∧
        two_level_nevershrink_array_t.chunks a' = [].
Proof.
  refine (two_level_nevershrink_array_more.ns_dtor_frees_all nevershrink_state _).
  by exists [two_level_nevershrink_array_t.Assign 5 7].
Defined.
End more_examples.
